(** * BLE_protocols: the production engine and the protocol stepper

    A shallow embedding of [production.cpp], [production.h], [protocol.cpp]
    and of the macros of [protocol.h], with the properties of the rule
    dispatcher, of the one-shot perform action, of the until conditions and
    of the step counter of a protocol body.

    Conventions of the embedding.
    - The file-scope statics of [production.cpp] and [protocol.cpp] are the
      fields of one record [State]; every function takes the state and gives
      the new one back.
    - A function pointer is an address (a [nat]) together with what the
      function computes; [NULL] is [None].
    - User callbacks are opaque: the engine's only view of them is that they
      were called, and, for predicates and for the perform action, the
      boolean they returned.  Every call the engine makes is appended to the
      field [trace].  Callbacks do not re-enter the rule store while a
      dispatch is running; none of the callbacks of this repository does.
    - The debug names ([set_action_name], [set_protocol_name]) and the
      debug output are left out.
    - [millis()] is the argument [now] of the functions that read the clock.
    - An array access outside [0 .. MAX_RULES-1] is undefined behaviour in
      C; the embedding stops with [Fault] there. *)

From Stdlib Require Import ZArith List Bool Lia.
From stdpp Require Import base list.
Import ListNotations.

Local Open Scope Z_scope.

(** * Part one: the embedding *)

(** ** Constants of the STBLE library (external headers) *)

Definition HCI_EVENT_PKT : Z := 4.
Definition EVT_LE_META_EVENT : Z := 62.
Definition EVT_VENDOR : Z := 255.
Definition EVT_BLUE_HAL_INITIALIZED : Z := 1.
Definition EVT_BLUE_GAP_PROCEDURE_COMPLETE : Z := 1031.

(** [production.h] *)
Definition MAX_RULES : nat := 20.

(** [unsigned long] of the Arduino targets is 32 bits wide. *)
Definition ULONG_MODULUS : Z := 2 ^ 32.
Definition wrap_ulong (x : Z) : Z := x mod ULONG_MODULUS.

(** [uint16_t], the type of the static [state] of a protocol body. *)
Definition wrap_u16 (x : Z) : Z := x mod 65536.

(** ** Packets

    [hci_uart_pckt] is a type byte followed by raw bytes; the engine casts
    the raw bytes to [hci_event_pckt] (event code, parameter length,
    payload) and the payload to the packed structs of the vendor events.
    A byte read beyond the received bytes is read from the zeroed receive
    buffer. *)

Definition byte_at (buf : list Z) (i : nat) : Z := nth i buf 0.

Record hci_uart_pckt := { type : Z; uart_data : list Z }.

Record hci_event_pckt := { evt : Z; plen : Z; data : list Z }.

(** [(hci_event_pckt* ) (void* ) hci_pckt->data] *)
Definition event_of (p : hci_uart_pckt) : hci_event_pckt :=
  {| evt := byte_at (uart_data p) 0;
     plen := byte_at (uart_data p) 1;
     data := drop 2 (uart_data p) |}.

(** [evt_le_meta_event]: [uint8_t subevent; uint8_t data[]] *)
Definition subevent (payload : list Z) : Z := byte_at payload 0.

(** [evt_blue_aci]: [uint16_t ecode; uint8_t data[]], little endian *)
Definition blue_ecode (payload : list Z) : Z :=
  byte_at payload 0 + 256 * byte_at payload 1.
Definition blue_data (payload : list Z) : list Z := drop 2 payload.

(** [evt_hal_initialized]: [uint8_t reason_code] *)
Definition reason_code (bytes : list Z) : Z := byte_at bytes 0.

(** [evt_gap_procedure_complete]: [uint8_t procedure_code; uint8_t status; ...] *)
Definition procedure_code (bytes : list Z) : Z := byte_at bytes 0.

(** ** Rules *)

Inductive check_t :=
  | no_check | event_check | le_meta_event_check | ecode
  | reset_reason | procedure_complete | condition_check.

Definition check_eqb (a b : check_t) : bool :=
  match a, b with
  | no_check, no_check | event_check, event_check
  | le_meta_event_check, le_meta_event_check | ecode, ecode
  | reset_reason, reset_reason | procedure_complete, procedure_complete
  | condition_check, condition_check => true
  | _, _ => false
  end.

Definition arg_t := nat.

(** [bool ( *action_ptr_t)(void * args)] *)
Record action_ptr_t := { act_addr : nat; act_fn : arg_t -> bool }.

(** [bool ( *event_condition_ptr_t)(hci_event_pckt * )] *)
Record event_condition_ptr_t :=
  { cond_addr : nat; cond_fn : hci_event_pckt -> bool }.

(** [bool ( *event_action_ptr_t)(hci_event_pckt *, void * )]; the engine never
    reads what an event action returns. *)
Definition event_action_ptr_t := nat.

(** [bool ( *until_ptr_t)(hci_event_pckt * )]: either the engine's own
    [timeout], or a predicate of the user. *)
Inductive until_ptr_t :=
  | timeout_ptr
  | user_until (addr : nat) (fn : hci_event_pckt -> bool).

Record rule_t := {
  check_type : check_t;
  event_code : Z;
  event_condition : option event_condition_ptr_t;
  event_action : option event_action_ptr_t;
  action_args : arg_t
}.

(** Static storage is zero-initialised. *)
Definition zero_rule : rule_t :=
  {| check_type := no_check; event_code := 0; event_condition := None;
     event_action := None; action_args := 0%nat |}.

(** One of [rules]/[num_rules]/[current_rule],
    [exclusive_rules]/[num_exclusive_rules]/[current_exclusive_rule],
    [global_rules]/[num_global_rules]/[current_global_rule]. *)
Record rule_array := { arr : list rule_t; num : nat; current : nat }.

Inductive rule_set := Normal | Exclusive | Global.

(** [rule_t *]: [NULL], or the address of a slot of one of the arrays. *)
Definition rule_ptr := option (rule_set * nat).

(** ** The callbacks the engine invokes *)

Inductive call :=
  | CallPerform (f : nat) (args : arg_t)
  | CallCondition (f : nat) (ev : hci_event_pckt)
  | CallEventAction (f : nat) (ev : hci_event_pckt) (args : arg_t)
  | CallUntil (f : nat) (ev : hci_event_pckt).

Definition protocol_ptr_t := nat.

(** ** The state *)

Record State := {
  action : option action_ptr_t;
  perform_args : arg_t;                 (* static [action_args] *)
  until_condition : option until_ptr_t;
  until_check : check_t;
  until_check_event : Z;
  production_start : Z;
  timeout_milliseconds : Z;
  rule_matched : bool;
  normal_set : rule_array;
  exclusive_set : rule_array;
  global_set : rule_array;
  current_protocol : option protocol_ptr_t;
  trace : list call
}.

Definition rules (s : State) := arr (normal_set s).
Definition num_rules (s : State) := num (normal_set s).
Definition current_rule (s : State) := current (normal_set s).
Definition exclusive_rules (s : State) := arr (exclusive_set s).
Definition num_exclusive_rules (s : State) := num (exclusive_set s).
Definition current_exclusive_rule (s : State) := current (exclusive_set s).
Definition global_rules (s : State) := arr (global_set s).
Definition num_global_rules (s : State) := num (global_set s).
Definition current_global_rule (s : State) := current (global_set s).

Definition empty_array : rule_array :=
  {| arr := replicate MAX_RULES zero_rule; num := 0; current := 0 |}.

(** The state at program start. *)
Definition initial_state : State :=
  {| action := None; perform_args := 0%nat;
     until_condition := None; until_check := no_check; until_check_event := 0;
     production_start := 0; timeout_milliseconds := 0;
     rule_matched := false;
     normal_set := empty_array; exclusive_set := empty_array;
     global_set := empty_array;
     current_protocol := None; trace := [] |}.

Definition set_action (a : option action_ptr_t) (args : arg_t) (s : State) : State :=
  {| action := a; perform_args := args;
     until_condition := until_condition s; until_check := until_check s;
     until_check_event := until_check_event s;
     production_start := production_start s;
     timeout_milliseconds := timeout_milliseconds s;
     rule_matched := rule_matched s;
     normal_set := normal_set s; exclusive_set := exclusive_set s;
     global_set := global_set s;
     current_protocol := current_protocol s; trace := trace s |}.

Definition set_until_condition (u : option until_ptr_t) (s : State) : State :=
  {| action := action s; perform_args := perform_args s;
     until_condition := u; until_check := until_check s;
     until_check_event := until_check_event s;
     production_start := production_start s;
     timeout_milliseconds := timeout_milliseconds s;
     rule_matched := rule_matched s;
     normal_set := normal_set s; exclusive_set := exclusive_set s;
     global_set := global_set s;
     current_protocol := current_protocol s; trace := trace s |}.

Definition set_until_check (c : check_t) (code : Z) (s : State) : State :=
  {| action := action s; perform_args := perform_args s;
     until_condition := until_condition s; until_check := c;
     until_check_event := code;
     production_start := production_start s;
     timeout_milliseconds := timeout_milliseconds s;
     rule_matched := rule_matched s;
     normal_set := normal_set s; exclusive_set := exclusive_set s;
     global_set := global_set s;
     current_protocol := current_protocol s; trace := trace s |}.

Definition set_production_start (t : Z) (s : State) : State :=
  {| action := action s; perform_args := perform_args s;
     until_condition := until_condition s; until_check := until_check s;
     until_check_event := until_check_event s;
     production_start := t;
     timeout_milliseconds := timeout_milliseconds s;
     rule_matched := rule_matched s;
     normal_set := normal_set s; exclusive_set := exclusive_set s;
     global_set := global_set s;
     current_protocol := current_protocol s; trace := trace s |}.

Definition set_timeout_milliseconds (t : Z) (s : State) : State :=
  {| action := action s; perform_args := perform_args s;
     until_condition := until_condition s; until_check := until_check s;
     until_check_event := until_check_event s;
     production_start := production_start s;
     timeout_milliseconds := t;
     rule_matched := rule_matched s;
     normal_set := normal_set s; exclusive_set := exclusive_set s;
     global_set := global_set s;
     current_protocol := current_protocol s; trace := trace s |}.

Definition set_rule_matched (b : bool) (s : State) : State :=
  {| action := action s; perform_args := perform_args s;
     until_condition := until_condition s; until_check := until_check s;
     until_check_event := until_check_event s;
     production_start := production_start s;
     timeout_milliseconds := timeout_milliseconds s;
     rule_matched := b;
     normal_set := normal_set s; exclusive_set := exclusive_set s;
     global_set := global_set s;
     current_protocol := current_protocol s; trace := trace s |}.

Definition with_current_protocol (p : option protocol_ptr_t) (s : State) : State :=
  {| action := action s; perform_args := perform_args s;
     until_condition := until_condition s; until_check := until_check s;
     until_check_event := until_check_event s;
     production_start := production_start s;
     timeout_milliseconds := timeout_milliseconds s;
     rule_matched := rule_matched s;
     normal_set := normal_set s; exclusive_set := exclusive_set s;
     global_set := global_set s;
     current_protocol := p; trace := trace s |}.

Definition log_call (c : list call) (s : State) : State :=
  {| action := action s; perform_args := perform_args s;
     until_condition := until_condition s; until_check := until_check s;
     until_check_event := until_check_event s;
     production_start := production_start s;
     timeout_milliseconds := timeout_milliseconds s;
     rule_matched := rule_matched s;
     normal_set := normal_set s; exclusive_set := exclusive_set s;
     global_set := global_set s;
     current_protocol := current_protocol s; trace := trace s ++ c |}.

Definition get_set (k : rule_set) (s : State) : rule_array :=
  match k with
  | Normal => normal_set s
  | Exclusive => exclusive_set s
  | Global => global_set s
  end.

Definition put_set (k : rule_set) (a : rule_array) (s : State) : State :=
  {| action := action s; perform_args := perform_args s;
     until_condition := until_condition s; until_check := until_check s;
     until_check_event := until_check_event s;
     production_start := production_start s;
     timeout_milliseconds := timeout_milliseconds s;
     rule_matched := rule_matched s;
     normal_set := match k with Normal => a | _ => normal_set s end;
     exclusive_set := match k with Exclusive => a | _ => exclusive_set s end;
     global_set := match k with Global => a | _ => global_set s end;
     current_protocol := current_protocol s; trace := trace s |}.

(** ** Results of code that can leave the defined behaviour of C *)

Inductive result (A : Type) :=
  | Ret (a : A)
  | Fault        (* an access outside an array, or no return value *)
  | OutOfFuel.   (* a loop of the embedding was given too few iterations *)
Arguments Ret {A} a.
Arguments Fault {A}.
Arguments OutOfFuel {A}.

Definition bind {A B : Type} (m : result A) (f : A -> result B) : result B :=
  match m with
  | Ret a => f a
  | Fault => Fault
  | OutOfFuel => OutOfFuel
  end.

Notation "'do' p <- m ; k" := (bind m (fun p => k))
  (at level 10, p pattern, m at level 100, k at level 200,
   format "'[v' 'do'  p  <-  m ; '/' k ']'").

(** ** production.cpp: perform, until, timeout *)

Definition perform (act : option action_ptr_t) (args : arg_t) (s : State) : State :=
  set_action act args s.

(** Runs the pending perform action, if there is one, and forgets it. *)
Definition run_action_only_once (s : State) : bool * State :=
  match action s with
  | Some a =>
      let ret := act_fn a (perform_args s) in
      (ret, set_action None 0%nat
              (log_call [CallPerform (act_addr a) (perform_args s)] s))
  | None => (true, s)
  end.

Definition until (until_function : option until_ptr_t) (s : State) : State :=
  set_until_condition until_function s.

Definition until_clear (s : State) : State := set_until_condition None s.

Definition until_event (check_type : check_t) (event_code : Z) (s : State) : State :=
  set_until_check check_type event_code s.

Definition until_event_clear (s : State) : State := set_until_check no_check 0 s.

Definition start_timeout (now : Z) (s : State) : State :=
  set_production_start now s.

Definition set_timeout (milliseconds : Z) (now : Z) (s : State) : State :=
  start_timeout now (set_timeout_milliseconds milliseconds s).

(** [(production_start + timeout_milliseconds) < millis()], in
    [unsigned long] arithmetic. *)
Definition timeout (now : Z) (s : State) : bool :=
  wrap_ulong (production_start s + timeout_milliseconds s) <? now.

Definition met_expectations (s : State) : bool := rule_matched s.

(** ** production.cpp: the rule arrays *)

Definition array_clear (a : rule_array) : rule_array :=
  {| arr := arr a; num := 0; current := current a |}.

Definition array_start (a : rule_array) : rule_array :=
  {| arr := arr a; num := num a; current := 0 |}.

Definition array_done (a : rule_array) : bool := (current a =? num a)%nat.

(** The capacity test reads the iteration cursor. *)
Definition array_new (a : rule_array) : option nat * rule_array :=
  if (current a =? MAX_RULES)%nat then (None, a)
  else (Some (num a), {| arr := arr a; num := S (num a); current := current a |}).

Definition array_next (a : rule_array) : option nat * rule_array :=
  if array_done a then (None, a)
  else (Some (current a),
        {| arr := arr a; num := num a; current := S (current a) |}).

Definition rules_clear (s : State) : State :=
  put_set Normal (array_clear (normal_set s)) s.
Definition exclusive_rules_clear (s : State) : State :=
  put_set Exclusive (array_clear (exclusive_set s)) s.
Definition global_rules_clear (s : State) : State :=
  put_set Global (array_clear (global_set s)) s.

Definition rules_start (s : State) : State :=
  put_set Normal (array_start (normal_set s)) s.
Definition exclusive_rules_start (s : State) : State :=
  put_set Exclusive (array_start (exclusive_set s)) s.
Definition global_rules_start (s : State) : State :=
  put_set Global (array_start (global_set s)) s.

Definition rules_done (s : State) : bool := array_done (normal_set s).
Definition exclusive_rules_done (s : State) : bool := array_done (exclusive_set s).
Definition global_rules_done (s : State) : bool := array_done (global_set s).

(** [new_rule], [new_exclusive_rule], [new_global_rule] *)
Definition new_in (k : rule_set) (s : State) : rule_ptr * State :=
  let (i, a) := array_new (get_set k s) in
  (option_map (pair k) i, put_set k a s).

Definition new_rule := new_in Normal.
Definition new_exclusive_rule := new_in Exclusive.
Definition new_global_rule := new_in Global.

(** [next_rule], [next_exclusive_rule], [next_global_rule] *)
Definition next_in (k : rule_set) (s : State) : rule_ptr * State :=
  let (i, a) := array_next (get_set k s) in
  (option_map (pair k) i, put_set k a s).

Definition next_rule := next_in Normal.
Definition next_exclusive_rule := next_in Exclusive.
Definition next_global_rule := next_in Global.

Definition clear_all_expectations (s : State) : State :=
  global_rules_clear (exclusive_rules_clear (rules_clear s)).

Definition clear_expectations (s : State) : State :=
  set_rule_matched false (rules_clear s).

Definition clear_global_expectations (s : State) : State := global_rules_clear s.

Definition clear_exclusive_expectations (s : State) : State :=
  exclusive_rules_clear s.

(** A write through a [rule_t *]. *)
Definition store_rule (r : rule_ptr) (v : rule_t) (s : State) : result State :=
  match r with
  | None => Ret s
  | Some (k, i) =>
      let a := get_set k s in
      if (i <? length (arr a))%nat
      then Ret (put_set k {| arr := <[i := v]> (arr a); num := num a;
                             current := current a |} s)
      else Fault
  end.

Definition set_expect (r : rule_ptr) (check_type : check_t) (event_code : Z)
    (event_action : option event_action_ptr_t) (action_args : arg_t)
    (s : State) : result State :=
  store_rule r {| check_type := check_type; event_code := event_code;
                  event_condition := None; event_action := event_action;
                  action_args := action_args |} s.

Definition set_expect_condition (r : rule_ptr)
    (event_condition : option event_condition_ptr_t)
    (event_action : option event_action_ptr_t) (action_args : arg_t)
    (s : State) : result State :=
  store_rule r {| check_type := condition_check; event_code := 0;
                  event_condition := event_condition;
                  event_action := event_action;
                  action_args := action_args |} s.

Definition expect (c : check_t) (code : Z) (act : option event_action_ptr_t)
    (args : arg_t) (s : State) : result State :=
  let (r, s1) := new_rule s in set_expect r c code act args s1.

Definition expect_condition (cond : option event_condition_ptr_t)
    (act : option event_action_ptr_t) (args : arg_t) (s : State) : result State :=
  let (r, s1) := new_rule s in set_expect_condition r cond act args s1.

Definition expect_ex (c : check_t) (code : Z) (act : option event_action_ptr_t)
    (args : arg_t) (s : State) : result State :=
  let (r, s1) := new_exclusive_rule s in set_expect r c code act args s1.

Definition expect_ex_condition (cond : option event_condition_ptr_t)
    (act : option event_action_ptr_t) (args : arg_t) (s : State) : result State :=
  let (r, s1) := new_exclusive_rule s in set_expect_condition r cond act args s1.

Definition expect_globally (c : check_t) (code : Z)
    (act : option event_action_ptr_t) (args : arg_t) (s : State) : result State :=
  let (r, s1) := new_global_rule s in set_expect r c code act args s1.

Definition expect_globally_condition (cond : option event_condition_ptr_t)
    (act : option event_action_ptr_t) (args : arg_t) (s : State) : result State :=
  let (r, s1) := new_global_rule s in set_expect_condition r cond act args s1.

(** ** production.cpp: the event matcher *)

Definition check4event (event_pckt : hci_event_pckt) (check_type : check_t)
    (event_code : Z) : bool :=
  match check_type with
  | event_check => evt event_pckt =? event_code
  | le_meta_event_check =>
      if evt event_pckt =? EVT_LE_META_EVENT
      then subevent (data event_pckt) =? event_code
      else false
  | reset_reason =>
      if evt event_pckt =? EVT_VENDOR then
        if blue_ecode (data event_pckt) =? EVT_BLUE_HAL_INITIALIZED
        then reason_code (data event_pckt) =? event_code
        else false
      else false
  | ecode => blue_ecode (data event_pckt) =? event_code
  | procedure_complete =>
      if evt event_pckt =? EVT_VENDOR then
        if blue_ecode (data event_pckt) =? EVT_BLUE_GAP_PROCEDURE_COMPLETE
        then procedure_code (blue_data (data event_pckt)) =? event_code
        else false
      else false
  | no_check | condition_check => false
  end.

(** The first half of [fire_rule]: does the rule match, and which callback
    did deciding it invoke. *)
Definition rule_test (r : rule_t) (event_pckt : hci_event_pckt) : bool * list call :=
  match check_type r with
  | condition_check =>
      match event_condition r with
      | Some c => (cond_fn c event_pckt, [CallCondition (cond_addr c) event_pckt])
      | None => (false, [])
      end
  | _ => (check4event event_pckt (check_type r) (event_code r), [])
  end.

(** The second half: the action of a rule that matched. *)
Definition rule_action (r : rule_t) (event_pckt : hci_event_pckt) : list call :=
  match event_action r with
  | Some f => [CallEventAction f event_pckt (action_args r)]
  | None => []
  end.

Definition load_rule (r : rule_ptr) (s : State) : result rule_t :=
  match r with
  | None => Fault
  | Some (k, i) =>
      match arr (get_set k s) !! i with
      | Some v => Ret v
      | None => Fault
      end
  end.

Definition fire_rule (r : rule_ptr) (event_pckt : hci_event_pckt) (s : State)
    : result (bool * State) :=
  do v <- load_rule r s;
  let (do_action, seen) := rule_test v event_pckt in
  let s1 := log_call seen s in
  if do_action
  then Ret (true, log_call (rule_action v event_pckt) s1)
  else Ret (false, s1).

(** ** production.cpp: run_production *)

(** The three [while] loops of [run_production] over the set [k].
    [first_only] is the [&& !did_rule] of the loop condition (exclusive and
    global rules), [marks] is the assignment [rule_matched = true]
    (exclusive and normal rules). *)
Fixpoint rule_loop (k : rule_set) (first_only marks : bool) (fuel : nat)
    (event_pckt : hci_event_pckt) (did_rule : bool) (s : State)
    : result (bool * State) :=
  if negb (array_done (get_set k s)) && negb (first_only && did_rule) then
    match fuel with
    | O => OutOfFuel
    | S fuel' =>
        let (r, s1) := next_in k s in
        do (fired, s2) <- fire_rule r event_pckt s1;
        if fired
        then rule_loop k first_only marks fuel' event_pckt true
               (if marks then set_rule_matched true s2 else s2)
        else rule_loop k first_only marks fuel' event_pckt did_rule s2
    end
  else Ret (did_rule, s).

(** A call through [until_condition]. *)
Definition call_until (u : until_ptr_t) (event_pckt : hci_event_pckt)
    (now : Z) (s : State) : bool * State :=
  match u with
  | timeout_ptr => (timeout now s, s)
  | user_until a f => (f event_pckt, log_call [CallUntil a event_pckt] s)
  end.

Definition run_production (pckt : hci_uart_pckt) (now : Z) (s : State)
    : result (Z * State) :=
  if negb (type pckt =? HCI_EVENT_PKT) then Ret (-1, s)
  else
    let event_pckt := event_of pckt in
    let s := exclusive_rules_start s in
    do (did_rule, s) <- rule_loop Exclusive true true (num_exclusive_rules s)
                        event_pckt false s;
    let s := rules_start s in
    do (did_rule, s) <- rule_loop Normal false true (num_rules s)
                        event_pckt did_rule s;
    do (did_rule, s) <-
        (if negb did_rule
         then let s := global_rules_start s in
              rule_loop Global true false (num_global_rules s)
                event_pckt did_rule s
         else Ret (did_rule, s));
    let keep_running := true in
    let keep_running :=
      if match until_condition s with None => true | Some _ => false end
         && check_eqb (until_check s) no_check
      then false else keep_running in
    let '(keep_running, s) :=
      match until_condition s with
      | Some u =>
          let (b, s1) := call_until u event_pckt now s in
          (if b then false else keep_running, s1)
      | None => (keep_running, s)
      end in
    let keep_running :=
      if negb (check_eqb (until_check s) no_check)
         && check4event event_pckt (until_check s) (until_check_event s)
      then false else keep_running in
    if negb keep_running
    then Ret (0, until_event_clear (until_clear
                   (exclusive_rules_clear (rules_clear s))))
    else if did_rule then Ret (1, s) else Ret (-1, s).

(** ** protocol.cpp and the macros of protocol.h *)

Definition set_current_protocol (protocol : protocol_ptr_t) (s : State) : State :=
  with_current_protocol (Some protocol) s.

Definition get_current_protocol (s : State) : option protocol_ptr_t :=
  current_protocol s.

Definition clear_current_protocol (s : State) : State :=
  with_current_protocol None
    (until_event_clear (until_clear
       (clear_exclusive_expectations (clear_expectations s)))).

Definition protocol_running (s : State) : bool :=
  match current_protocol s with Some _ => true | None => false end.

(** [RUN_PRODUCTION], from the call of [run_action_only_once] to the
    [return]: the value returned, the static [state], the engine state. *)
Definition RUN_PRODUCTION (protocol_success : bool) (state : Z) (s : State)
    : bool * Z * State :=
  let (ret, s1) := run_action_only_once s in
  if negb ret then (protocol_success, state, clear_current_protocol s1)
  else (protocol_success, wrap_u16 (state + 1), s1).

Definition RUN_PRODUCTION_AND_REPEAT_IF (cond : bool) (protocol_success : bool)
    (state : Z) (s : State) : bool * Z * State :=
  if negb protocol_success then (false, state, s)
  else
    let (ret, s1) := run_action_only_once s in
    if negb ret then (true, state, clear_current_protocol s1)
    else (true, if negb cond then wrap_u16 (state + 1) else state, s1).

Definition END_PROTOCOL (protocol_success : bool) (s : State) : bool * Z * State :=
  (protocol_success, 0, clear_current_protocol s).

(** The user code of one step either leaves the protocol function with
    [return v] (as [ABORT_PROTOCOL] does), or reaches the macro that closes
    the step, with the local [protocol_success] and, for
    [RUN_PRODUCTION_AND_REPEAT_IF], the value of its argument. *)
Inductive step_exit :=
  | Returned (v : bool)
  | Reached (protocol_success : bool) (cond : bool).

Definition step_code := Z -> State -> result (step_exit * State).

Inductive closing := Plain | RepeatIf.

(** A protocol function: the steps closed by [RUN_PRODUCTION] or
    [RUN_PRODUCTION_AND_REPEAT_IF], and the step closed by [END_PROTOCOL]. *)
Record protocol := {
  protocol_addr : protocol_ptr_t;
  steps : list (step_code * closing);
  last_step : step_code
}.

Definition close_step (c : closing) (e : step_exit) (state : Z) (s : State)
    : bool * Z * State :=
  match e with
  | Returned v => (v, state, s)
  | Reached ps cond =>
      match c with
      | Plain => RUN_PRODUCTION ps state s
      | RepeatIf => RUN_PRODUCTION_AND_REPEAT_IF cond ps state s
      end
  end.

(** The chain of [if (state == state_compare++) { ... }] blocks. *)
Fixpoint walk_steps (l : list (step_code * closing)) (last : step_code)
    (state_compare : Z) (now : Z) (state : Z) (s : State)
    : result (bool * Z * State) :=
  match l with
  | (code, c) :: l' =>
      if state =? state_compare then
        do (e, s1) <- code now s;
        Ret (close_step c e state s1)
      else walk_steps l' last (wrap_u16 (state_compare + 1)) now state s
  | [] =>
      if state =? state_compare then
        do (e, s1) <- last now s;
        match e with
        | Returned v => Ret (v, state, s1)
        | Reached ps _ => Ret (END_PROTOCOL ps s1)
        end
      else Fault
  end.

(** A call of the protocol function; [BEGIN_PROTOCOL] makes the first block
    start with [set_current_protocol]. *)
Definition protocol_body (p : protocol) (now : Z) (state : Z) (s : State)
    : result (bool * Z * State) :=
  walk_steps (steps p) (last_step p) 0 now state
    (if state =? 0 then set_current_protocol (protocol_addr p) s else s).

(** ** What one dispatch does, in closed form *)

(** The rules in use: the first [num] slots of an array. *)
Definition live (a : rule_array) : list rule_t := take (num a) (arr a).

Definition rule_matches (event_pckt : hci_event_pckt) (r : rule_t) : bool :=
  fst (rule_test r event_pckt).

(** The callbacks invoked by [fire_rule] on one rule. *)
Definition rule_calls (event_pckt : hci_event_pckt) (r : rule_t) : list call :=
  snd (rule_test r event_pckt)
  ++ (if rule_matches event_pckt r then rule_action r event_pckt else []).

(** The rules a loop passes to [fire_rule]: all of them, or with
    [first_only] those up to and including the first match. *)
Fixpoint scan (first_only : bool) (event_pckt : hci_event_pckt)
    (l : list rule_t) : list rule_t :=
  match l with
  | [] => []
  | r :: l' =>
      r :: (if first_only && rule_matches event_pckt r then []
            else scan first_only event_pckt l')
  end.

Definition scanned (first_only did_rule : bool) (event_pckt : hci_event_pckt)
    (l : list rule_t) : list rule_t :=
  if first_only && did_rule then [] else scan first_only event_pckt l.

Definition set_cursor (n : nat) (a : rule_array) : rule_array :=
  {| arr := arr a; num := num a; current := n |}.

(** The state a loop over the set [k] leaves, when it passed the rules
    [sc] to [fire_rule]. *)
Definition after_loop (k : rule_set) (marks : bool) (sc : list rule_t)
    (event_pckt : hci_event_pckt) (s : State) : State :=
  let move a := set_cursor (current a + length sc) a in
  {| action := action s; perform_args := perform_args s;
     until_condition := until_condition s; until_check := until_check s;
     until_check_event := until_check_event s;
     production_start := production_start s;
     timeout_milliseconds := timeout_milliseconds s;
     rule_matched :=
       if marks && existsb (rule_matches event_pckt) sc then true
       else rule_matched s;
     normal_set :=
       match k with Normal => move (normal_set s) | _ => normal_set s end;
     exclusive_set :=
       match k with Exclusive => move (exclusive_set s) | _ => exclusive_set s end;
     global_set :=
       match k with Global => move (global_set s) | _ => global_set s end;
     current_protocol := current_protocol s;
     trace := trace s ++ flat_map (rule_calls event_pckt) sc |}.

(** The store is well formed when every array has its [MAX_RULES] slots and
    a count within them. *)
Definition wf_array (a : rule_array) : Prop :=
  length (arr a) = MAX_RULES /\ (num a <= MAX_RULES)%nat.

Definition wf (s : State) : Prop :=
  wf_array (normal_set s) /\ wf_array (exclusive_set s) /\ wf_array (global_set s).

(** The rules phase of [run_production] on an event packet. *)
Definition after_rules (ev : hci_event_pckt) (s : State) : bool * State :=
  let ex := scan true ev (live (exclusive_set s)) in
  let nm := live (normal_set s) in
  let gl := scan true ev (live (global_set s)) in
  let m := existsb (rule_matches ev) ex || existsb (rule_matches ev) nm in
  (m || existsb (rule_matches ev) gl,
   {| action := action s; perform_args := perform_args s;
      until_condition := until_condition s; until_check := until_check s;
      until_check_event := until_check_event s;
      production_start := production_start s;
      timeout_milliseconds := timeout_milliseconds s;
      rule_matched := rule_matched s || m;
      normal_set := set_cursor (length nm) (normal_set s);
      exclusive_set := set_cursor (length ex) (exclusive_set s);
      global_set := if m then global_set s
                    else set_cursor (length gl) (global_set s);
      current_protocol := current_protocol s;
      trace := trace s
               ++ flat_map (rule_calls ev) ex
               ++ flat_map (rule_calls ev) nm
               ++ (if m then [] else flat_map (rule_calls ev) gl) |}).

(** The end of [run_production]: the until conditions and the clean-up. *)
Definition production_end (ev : hci_event_pckt) (now : Z) (did_rule : bool)
    (s : State) : Z * State :=
  let no_until :=
    match until_condition s with None => true | Some _ => false end
    && check_eqb (until_check s) no_check in
  let '(stop, s1) :=
    match until_condition s with
    | Some u => call_until u ev now s
    | None => (false, s)
    end in
  let by_event :=
    negb (check_eqb (until_check s) no_check)
    && check4event ev (until_check s) (until_check_event s) in
  if no_until || stop || by_event
  then (0, until_event_clear (until_clear
             (exclusive_rules_clear (rules_clear s1))))
  else if did_rule then (1, s1) else (-1, s1).

(** ** The order in which rules fire *)

Definition is_event_action (c : call) : bool :=
  match c with CallEventAction _ _ _ => true | _ => false end.

(** The event actions among the callbacks of a trace. *)
Definition event_actions (l : list call) : list call :=
  List.filter is_event_action l.

Definition first_match (ev : hci_event_pckt) (l : list rule_t) : option rule_t :=
  List.find (rule_matches ev) l.

Definition action_of (ev : hci_event_pckt) (o : option rule_t) : list call :=
  match o with
  | Some r => rule_action r ev
  | None => []
  end.


(** The callback a call through [until_condition] adds to the trace. *)
Definition until_calls (u : option until_ptr_t) (ev : hci_event_pckt) : list call :=
  match u with
  | Some (user_until a _) => [CallUntil a ev]
  | _ => []
  end.

(** ** Concrete stores and packets *)

(** An event packet with the given event code and payload. *)
Definition event_packet (code : Z) (payload : list Z) : hci_uart_pckt :=
  {| type := HCI_EVENT_PKT;
     uart_data := code :: Z.of_nat (length payload) :: payload |}.

Definition state_of (r : result State) : State :=
  match r with Ret s => s | _ => initial_state end.

(** One exclusive rule, two normal rules and one global rule, all on event
    code 16, with the actions 1, 2, 3 and 7. *)
Definition demo_state : State :=
  Eval vm_compute in
    state_of
      (do s <- expect event_check 16 (Some 2%nat) 0%nat initial_state;
       do s <- expect event_check 16 (Some 3%nat) 0%nat s;
       do s <- expect_ex event_check 16 (Some 1%nat) 0%nat s;
       expect_globally event_check 16 (Some 7%nat) 0%nat s).

(** ** What a completed production clears *)

(** A production with a 100 ms timeout started at clock reading 5 and one
    normal rule on event code 16. *)
Definition timed_state : State :=
  Eval vm_compute in
    state_of (expect event_check 16 (Some 1%nat) 0%nat
                (set_timeout 100 5 initial_state)).

(** Completion read as clearing the timeout as well and leaving the flag
    as it was before the dispatch. *)
Definition all_cleared (s s' : State) : Prop :=
  num_rules s' = 0%nat /\ num_exclusive_rules s' = 0%nat
  /\ until_condition s' = None /\ until_check s' = no_check
  /\ timeout_milliseconds s' = 0 /\ production_start s' = 0
  /\ global_rules s' = global_rules s
  /\ num_global_rules s' = num_global_rules s
  /\ rule_matched s' = rule_matched s.

(** ** Rules without an action *)

(** An exclusive rule on event code 16 without an action, followed by an
    exclusive rule with the action 9; a global rule with the action 7. *)
Definition silent_state : State :=
  Eval vm_compute in
    state_of
      (do s <- expect_ex event_check 16 None 0%nat initial_state;
       do s <- expect_ex event_check 16 (Some 9%nat) 0%nat s;
       do s <- expect event_check 16 None 0%nat s;
       expect_globally event_check 16 (Some 7%nat) 0%nat s).

Definition silent_rule : rule_t :=
  {| check_type := event_check; event_code := 16; event_condition := None;
     event_action := None; action_args := 0%nat |}.

(** ** met_expectations *)

(** A production with one normal rule on event code 16 and no until. *)
Definition first_production : State :=
  Eval vm_compute in
    state_of (expect event_check 16 (Some 1%nat) 0%nat initial_state).

(** The configuration of the production that follows: a normal rule on
    event code 2, completed by event code 3. *)
Definition configure_second (s : State) : result State :=
  do s <- expect event_check 2 (Some 2%nat) 0%nat s;
  Ret (until_event event_check 3 s).

(** ** Capacity of the rule arrays *)

Fixpoint expect_many (n : nat) (s : State) : result State :=
  match n with
  | O => Ret s
  | S n' => do s1 <- expect event_check 16 None 0%nat s; expect_many n' s1
  end.

(** The store after [MAX_RULES] calls of [expect]. *)
Definition full_state : State :=
  Eval vm_compute in state_of (expect_many MAX_RULES initial_state).

(** ** The matcher for vendor event codes *)

(** An LE meta event (event code 0x3E) whose first two payload bytes are
    0x01 0x04. *)
Definition meta_event : hci_event_pckt :=
  {| evt := EVT_LE_META_EVENT; plen := 2; data := [1; 4] |}.

(** ** Timeouts *)

(** The fifth scenario of the specification: the until event is event code
    9, the timeout is 100 ms, the production starts at clock reading 0. *)
Definition race_state : State :=
  until_event event_check 9 (set_timeout 100 0 initial_state).

(** The same with a timeout of zero. *)
Definition zero_timeout_state : State :=
  until_event event_check 9 (set_timeout 0 0 initial_state).

(** Until by [timeout], 100 ms, started at clock reading 0; the until event
    is event code 9 as well. *)
Definition until_timeout_state : State :=
  until (Some timeout_ptr) race_state.

(** ** The perform action *)

(** Events dispatched one after the other. *)
Fixpoint dispatch_all (evs : list (hci_uart_pckt * Z)) (s : State) : result State :=
  match evs with
  | [] => Ret s
  | (pckt, now) :: rest =>
      do (r, s1) <- run_production pckt now s;
      dispatch_all rest s1
  end.

Definition is_perform (c : call) : bool :=
  match c with CallPerform _ _ => true | _ => false end.

Definition no_perform (l : list call) : bool := forallb (fun c => negb (is_perform c)) l.

(** The call [run_action_only_once] makes for a pending perform action. *)
Definition perform_calls (a : option action_ptr_t) (args : arg_t) : list call :=
  match a with
  | Some f => [CallPerform (act_addr f) args]
  | None => []
  end.

(** What the pending perform action returns, [true] when there is none. *)
Definition perform_result (s : State) : bool :=
  match action s with
  | Some f => act_fn f (perform_args s)
  | None => true
  end.

(** The engine state both yield macros leave once they have called
    [run_action_only_once]. *)
Definition after_yield (s : State) : State :=
  let (ret, s1) := run_action_only_once s in
  if negb ret then clear_current_protocol s1 else s1.

(** Does the macro that closes a step get to [run_action_only_once]?
    [RUN_PRODUCTION_AND_REPEAT_IF] returns before it when
    [protocol_success] is false. *)
Definition yields (c : closing) (protocol_success : bool) : bool :=
  match c with Plain => true | RepeatIf => protocol_success end.

Definition failing_perform : action_ptr_t :=
  {| act_addr := 5%nat; act_fn := fun _ => false |}.

(** A running protocol whose next production has a perform action that
    fails, a normal rule, and an until event. *)
Definition failing_state : State :=
  Eval vm_compute in
    state_of
      (do s <- expect event_check 16 (Some 1%nat) 0%nat
                 (set_current_protocol 1%nat initial_state);
       Ret (until_event event_check 9 s)).

Definition failing_perform_state : State :=
  perform (Some failing_perform) 0%nat failing_state.

(** ** The step counter of a protocol body *)

(** [n] calls of the protocol function in a row, no event in between. *)
Fixpoint call_body (n : nat) (p : protocol) (now : Z) (state : Z) (s : State)
    : result (Z * State) :=
  match n with
  | O => Ret (state, s)
  | S n' =>
      do (r, state1, s1) <- protocol_body p now state s;
      call_body n' p now state1 s1
  end.

Definition ok_action : action_ptr_t :=
  {| act_addr := 4%nat; act_fn := fun _ => true |}.

(** A step that sets a perform action that succeeds, and nothing else. *)
Definition idle_step : step_code :=
  fun _ s => Ret (Reached true false, perform (Some ok_action) 0%nat s).

(** [PROTOCOL(p) BEGIN_PROTOCOL(p) RUN_PRODUCTION RUN_PRODUCTION END_PROTOCOL] *)
Definition two_step : protocol :=
  {| protocol_addr := 1%nat;
     steps := [(idle_step, Plain); (idle_step, Plain)];
     last_step := idle_step |}.

(** ** When a dispatch completes a production *)

Definition is_event_pckt (p : hci_uart_pckt * Z) : bool :=
  type (fst p) =? HCI_EVENT_PKT.

(** No until predicate and no until event are configured. *)
Definition no_until (s : State) : bool :=
  match until_condition s with None => true | Some _ => false end
  && check_eqb (until_check s) no_check.

(** The until predicate is configured and holds of the event. *)
Definition until_holds (ev : hci_event_pckt) (now : Z) (s : State) : bool :=
  match until_condition s with
  | Some u => fst (call_until u ev now s)
  | None => false
  end.

(** The until event is configured and the event matches it. *)
Definition until_event_holds (ev : hci_event_pckt) (s : State) : bool :=
  negb (check_eqb (until_check s) no_check)
  && check4event ev (until_check s) (until_check_event s).

Definition completes (ev : hci_event_pckt) (now : Z) (s : State) : bool :=
  no_until s || until_holds ev now s || until_event_holds ev s.

(** Some rule of some set matches the event. *)
Definition any_match (ev : hci_event_pckt) (s : State) : bool :=
  existsb (rule_matches ev) (live (exclusive_set s))
  || existsb (rule_matches ev) (live (normal_set s))
  || existsb (rule_matches ev) (live (global_set s)).

(** ** Adding rules *)

(** [expect], [expect_ex] or [expect_globally], by the set they add to. *)
Definition expect_in (k : rule_set) :=
  match k with
  | Normal => expect
  | Exclusive => expect_ex
  | Global => expect_globally
  end.

(** [expect_condition], [expect_ex_condition] or
    [expect_globally_condition]. *)
Definition expect_condition_in (k : rule_set) :=
  match k with
  | Normal => expect_condition
  | Exclusive => expect_ex_condition
  | Global => expect_globally_condition
  end.

(** The rule [set_expect] writes. *)
Definition check_rule (c : check_t) (code : Z) (act : option event_action_ptr_t)
    (args : arg_t) : rule_t :=
  {| check_type := c; event_code := code; event_condition := None;
     event_action := act; action_args := args |}.

(** The rule [set_expect_condition] writes. *)
Definition condition_rule (cond : option event_condition_ptr_t)
    (act : option event_action_ptr_t) (args : arg_t) : rule_t :=
  {| check_type := condition_check; event_code := 0; event_condition := cond;
     event_action := act; action_args := args |}.

(** Everything of the state but the rule set [k]. *)
Definition same_but_set (k : rule_set) (s s' : State) : Prop :=
  (forall k', k' <> k -> get_set k' s' = get_set k' s)
  /\ action s' = action s /\ perform_args s' = perform_args s
  /\ until_condition s' = until_condition s
  /\ until_check s' = until_check s
  /\ until_check_event s' = until_check_event s
  /\ production_start s' = production_start s
  /\ timeout_milliseconds s' = timeout_milliseconds s
  /\ rule_matched s' = rule_matched s
  /\ current_protocol s' = current_protocol s
  /\ trace s' = trace s.

(** ** Further stores and packets *)

(** A vendor event "HAL initialized": vendor event code 0x0001, then a
    byte. *)
Definition hal_initialized_event : hci_event_pckt :=
  {| evt := EVT_VENDOR; plen := 3; data := [1; 0; 1] |}.


(** A step whose repeat condition holds. *)
Definition repeating_step : step_code :=
  fun _ s => Ret (Reached true true, perform (Some ok_action) 0%nat s).

(** [PROTOCOL(p) BEGIN_PROTOCOL(p) RUN_PRODUCTION
    RUN_PRODUCTION_AND_REPEAT_IF(c) END_PROTOCOL] *)
Definition looping_protocol : protocol :=
  {| protocol_addr := 2%nat;
     steps := [(idle_step, Plain); (repeating_step, RepeatIf)];
     last_step := idle_step |}.

(** ** protocol.cpp: run_current_protocol *)

(** The protocol functions of the program by address, and the engine state
    together with the static [state] of every protocol function. *)
Definition protocol_table := protocol_ptr_t -> option protocol.

Record System := { engine : State; step_of : protocol_ptr_t -> Z }.

Definition set_step (f : protocol_ptr_t) (v : Z) (m : protocol_ptr_t -> Z)
    : protocol_ptr_t -> Z :=
  fun g => if (g =? f)%nat then v else m g.

(** A call of the protocol function at the address [f]; an address that is
    not a protocol function of the program is outside the embedding. *)
Definition call_protocol (table : protocol_table) (f : protocol_ptr_t) (now : Z)
    (w : System) : result (bool * System) :=
  match table f with
  | Some p =>
      do (r, state, s) <- protocol_body p now (step_of w f) (engine w);
      Ret (r, {| engine := s; step_of := set_step f state (step_of w) |})
  | None => Fault
  end.

Definition run_current_protocol (table : protocol_table) (pckt : hci_uart_pckt)
    (now : Z) (w : System) : result System :=
  do (production_result, s) <- run_production pckt now (engine w);
  let w1 := {| engine := s; step_of := step_of w |} in
  if production_result =? 0 then
    match get_current_protocol s with
    | Some current_protocol =>
        do (protocol_is_working, w2) <- call_protocol table current_protocol now w1;
        if negb protocol_is_working
        then Ret {| engine := clear_current_protocol (engine w2);
                    step_of := step_of w2 |}
        else Ret w2
    | None => Ret w1
    end
  else Ret w1.

(** Packets handed to [run_current_protocol] one after the other. *)
Fixpoint run_events (table : protocol_table) (evs : list (hci_uart_pckt * Z))
    (w : System) : result System :=
  match evs with
  | [] => Ret w
  | (pckt, now) :: rest =>
      do w1 <- run_current_protocol table pckt now w;
      run_events table rest w1
  end.

(** A step that configures a production without an until condition and
    with a perform action that succeeds, and leaves the current protocol
    alone. *)
Definition single_shot_step (code : step_code) : Prop :=
  forall t s0, wf s0 -> no_until s0 = true ->
    exists cond s1,
      code t s0 = Ret (Reached true cond, s1)
      /\ wf s1 /\ no_until s1 = true /\ perform_result s1 = true
      /\ current_protocol s1 = current_protocol s0.

(** A protocol of such steps, all closed by [RUN_PRODUCTION]. *)
Definition single_shot_protocol (p : protocol) : Prop :=
  Z.of_nat (length (steps p)) < 65536
  /\ (forall code cl, In (code, cl) (steps p) ->
        cl = Plain /\ single_shot_step code)
  /\ single_shot_step (last_step p).

(** A program without protocol functions. *)
Definition no_protocols : protocol_table := fun _ => None.

(** The program whose only protocol function is [two_step]. *)
Definition two_step_table : protocol_table :=
  fun f => if (f =? 1)%nat then Some two_step else None.

Definition idle_system : System :=
  {| engine := initial_state; step_of := fun _ => 0 |}.

(** ** protocol.h: step functions *)

(** The user code of a step of a [STEP_FUNCTION] acts on the variables of
    the program, of some type [W]; it reaches [NEXT_STEP],
    [END_STEP_FUNCTION] or [RETURN_STEP], which advance the static [state],
    or it leaves with a plain [return], as [REPEAT_STEP_WHILE] does when its
    condition holds. *)
Inductive sf_exit := Advance | Stay.

Section STEP_FUNCTIONS.

Variable W : Type.

Definition sf_code := W -> sf_exit * W.

(** The chain of [if (state == state_compare++) { ... }] blocks of a step
    function; when no block is entered the function ends. *)
Fixpoint sf_walk (l : list sf_code) (state_compare : Z) (state : Z) (w : W)
    : Z * W :=
  match l with
  | [] => (state, w)
  | code :: l' =>
      if state =? state_compare then
        let (e, w1) := code w in
        (match e with Advance => wrap_u16 (state + 1) | Stay => state end, w1)
      else sf_walk l' (wrap_u16 (state_compare + 1)) state w
  end.

(** A call of a step function with the guard of [SKIP_STEPS_IF] ([skip]
    is constantly false for a step function without one). *)
Definition step_function (skip : W -> bool) (l : list sf_code) (state : Z)
    (w : W) : Z * W :=
  if skip w then (state, w) else sf_walk l 0 state w.

(** [n] calls in a row. *)
Fixpoint sf_calls (n : nat) (skip : W -> bool) (l : list sf_code) (state : Z)
    (w : W) : Z * W :=
  match n with
  | O => (state, w)
  | S n' =>
      let (state1, w1) := step_function skip l state w in
      sf_calls n' skip l state1 w1
  end.

(** The user code of the steps [l], one after the other. *)
Fixpoint run_in_order (l : list sf_code) (w : W) : W :=
  match l with
  | [] => w
  | code :: l' => run_in_order l' (snd (code w))
  end.

End STEP_FUNCTIONS.

Arguments sf_walk {W}.
Arguments step_function {W}.
Arguments sf_calls {W}.
Arguments run_in_order {W}.

(** Three steps that count. *)
Definition counting_steps : list (sf_code nat) :=
  [fun n => (Advance, S n); fun n => (Advance, (2 * n)%nat);
   fun n => (Advance, (n + 5)%nat)].

(** ** addrs.cpp: the list of device addresses *)

Definition MAX_ADDRS : nat := 100.

(** [uint8_t], the type of [num_addrs] and of the loop variables. *)
Definition wrap_u8 (x : Z) : Z := x mod 256.

(** [tBDAddr] is an array of six bytes. *)
Definition tBDAddr := list Z.

(** The statics of addrs.cpp: the count and the three arrays. *)
Record AddrList := {
  num_addrs : Z;
  addr_list : list tBDAddr;
  connectables : list Z;
  public_addrs : list Z
}.

Definition init_addr_list (l : AddrList) : AddrList :=
  {| num_addrs := 0; addr_list := addr_list l;
     connectables := connectables l; public_addrs := public_addrs l |}.

(** The inner loop of [add_addr],
    [for (index=0; index<6 && newaddr[index]==addr_list[addr][index]; index++);]
    run for at most [n] more bytes: the value of [index] when it ends. *)
Fixpoint first_difference (n : nat) (index : nat) (a b : tBDAddr) : nat :=
  match n with
  | O => index
  | S n' =>
      if byte_at a index =? byte_at b index
      then first_difference n' (S index) a b
      else index
  end.

(** The outer loop of [add_addr]: the values of [addr] and [found] when it
    ends.  [addr] is incremented after the iteration that sets [found]. *)
Fixpoint find_addr (fuel : nat) (newaddr : tBDAddr) (l : AddrList) (addr : Z)
    (found : bool) : result (Z * bool) :=
  match fuel with
  | O => if (addr <? num_addrs l) && negb found then OutOfFuel
         else Ret (addr, found)
  | S fuel' =>
      if (addr <? num_addrs l) && negb found then
        match addr_list l !! Z.to_nat addr with
        | None => Fault
        | Some entry =>
            let index := first_difference 6 0 newaddr entry in
            find_addr fuel' newaddr l (wrap_u8 (addr + 1))
              (if (index =? 6)%nat then true else found)
        end
      else Ret (addr, found)
  end.

(** [if (flag && (flags[addr] == 0)) flags[addr] = -1;] *)
Definition mark_both (flag : bool) (addr : nat) (flags : list Z)
    : result (list Z) :=
  if flag then
    match flags !! addr with
    | None => Fault
    | Some v => Ret (if v =? 0 then <[addr := -1]> flags else flags)
    end
  else Ret flags.

Definition flag_of (b : bool) : Z := if b then 1 else 0.

Definition add_addr (newaddr : tBDAddr) (connectable public_addr : bool)
    (l : AddrList) : result AddrList :=
  do (addr, found) <- find_addr 256 newaddr l 0 false;
  if negb found then
    let n := Z.to_nat (num_addrs l) in
    if (n <? MAX_ADDRS)%nat then
      Ret {| num_addrs := wrap_u8 (num_addrs l + 1);
             addr_list := <[n := map (byte_at newaddr) (seq 0 6)]> (addr_list l);
             connectables := <[n := flag_of connectable]> (connectables l);
             public_addrs := <[n := flag_of public_addr]> (public_addrs l) |}
    else Fault
  else
    do c <- mark_both connectable (Z.to_nat addr) (connectables l);
    do p <- mark_both public_addr (Z.to_nat addr) (public_addrs l);
    Ret {| num_addrs := num_addrs l; addr_list := addr_list l;
           connectables := c; public_addrs := p |}.

(** The addresses the list holds. *)
Definition stored (l : AddrList) : list tBDAddr :=
  take (Z.to_nat (num_addrs l)) (addr_list l).

(** The arrays have their declared sizes and the count is within them. *)
Definition addrs_wf (l : AddrList) : Prop :=
  length (addr_list l) = MAX_ADDRS
  /\ length (connectables l) = MAX_ADDRS
  /\ length (public_addrs l) = MAX_ADDRS
  /\ 0 <= num_addrs l <= Z.of_nat MAX_ADDRS
  /\ forallb (fun a => (length a =? 6)%nat) (addr_list l) = true.

(** Two devices seen once each, neither connectable nor public. *)
Definition two_addrs : AddrList :=
  {| num_addrs := 2;
     addr_list := [1; 2; 3; 4; 5; 6] :: [6; 5; 4; 3; 2; 1]
                  :: replicate 98 [0; 0; 0; 0; 0; 0];
     connectables := replicate 100 0;
     public_addrs := replicate 100 0 |}.

(** A full list: the addresses [i, 0, 0, 0, 0, 0] for [i] below 100. *)
Definition full_addrs : AddrList :=
  {| num_addrs := 100;
     addr_list := map (fun i => [Z.of_nat i; 0; 0; 0; 0; 0]) (seq 0 100);
     connectables := replicate 100 1;
     public_addrs := replicate 100 1 |}.

(** * Part two: properties *)

(** ** Tactics *)

(** Evaluates the setters and projections of [State] innermost first. *)
Tactic Notation "state_cbv" :=
  cbv beta iota zeta delta
    [after_loop log_call put_set get_set set_cursor set_rule_matched
     set_action set_until_condition set_until_check set_production_start
     set_timeout_milliseconds with_current_protocol
     array_clear array_start rules_clear exclusive_rules_clear
     global_rules_clear rules_start exclusive_rules_start global_rules_start
     until_clear until_event_clear clear_expectations
     clear_exclusive_expectations num_rules num_exclusive_rules
     num_global_rules current_rule current_exclusive_rule current_global_rule
     rules exclusive_rules global_rules
     action perform_args until_condition until_check until_check_event
     production_start timeout_milliseconds rule_matched normal_set
     exclusive_set global_set current_protocol trace arr num current
     andb orb negb].

Tactic Notation "state_cbv" "in" hyp(H) :=
  cbv beta iota zeta delta
    [after_loop log_call put_set get_set set_cursor set_rule_matched
     set_action set_until_condition set_until_check set_production_start
     set_timeout_milliseconds with_current_protocol
     array_clear array_start rules_clear exclusive_rules_clear
     global_rules_clear rules_start exclusive_rules_start global_rules_start
     until_clear until_event_clear clear_expectations
     clear_exclusive_expectations num_rules num_exclusive_rules
     num_global_rules current_rule current_exclusive_rule current_global_rule
     rules exclusive_rules global_rules
     action perform_args until_condition until_check until_check_event
     production_start timeout_milliseconds rule_matched normal_set
     exclusive_set global_set current_protocol trace arr num current
     andb orb negb] in H.

(** Case analysis on a boolean that decides an [if] and is not itself one. *)
Ltac case_atom :=
  match goal with
  | |- context [if ?b then _ else _] =>
      lazymatch b with
      | context [if _ then _ else _] => fail
      | _ => destruct b eqn:?
      end
  end.

(** Well-formedness of a concrete store. *)
Ltac wf_concrete := repeat split; vm_compute; lia.

(** ** Rules *)

Lemma check_eqb_eq (a b : check_t) : check_eqb a b = true <-> a = b.
Proof. destruct a, b; simpl; split; congruence. Qed.

(** ** What one dispatch does, in closed form *)

Lemma scan_all ev l : scan false ev l = l.
Proof. induction l as [|r l IH]; simpl; [reflexivity | now rewrite IH]. Qed.

Lemma existsb_scan fo ev l :
  existsb (rule_matches ev) (scan fo ev l) = existsb (rule_matches ev) l.
Proof.
  induction l as [|r l IH]; simpl; [reflexivity|].
  destruct fo, (rule_matches ev r); simpl; auto.
Qed.

Lemma drop_live_cons (a : rule_array) :
  (current a < num a)%nat -> (num a <= length (arr a))%nat ->
  exists v, arr a !! current a = Some v
    /\ drop (current a) (live a) = v :: drop (S (current a)) (live a).
Proof.
  intros Hlt Hle.
  destruct (lookup_lt_is_Some_2 (arr a) (current a)) as [v Hv]; [lia|].
  exists v; split; [exact Hv|].
  unfold live. apply drop_S. rewrite lookup_take_lt by lia. exact Hv.
Qed.

Lemma log_call_app c1 c2 s : log_call c2 (log_call c1 s) = log_call (c1 ++ c2) s.
Proof. state_cbv. now rewrite app_assoc. Qed.

Lemma after_loop_nil k mk ev s : after_loop k mk [] ev s = s.
Proof.
  destruct s as [? ? ? ? ? ? ? ? [? ? ?] [? ? ?] [? ? ?] ? ?], k, mk;
    state_cbv; cbn [existsb flat_map length];
    now rewrite Nat.add_0_r, app_nil_r.
Qed.

Lemma after_loop_cons k mk ev v sc s :
  after_loop k mk sc ev
    (let s2 := log_call (rule_calls ev v)
                 (put_set k (set_cursor (S (current (get_set k s))) (get_set k s)) s) in
     if mk && rule_matches ev v then set_rule_matched true s2 else s2)
  = after_loop k mk (v :: sc) ev s.
Proof.
  destruct s as [? ? ? ? ? ? ? ? [? ? ?] [? ? ?] [? ? ?] ? ?].
  destruct k, mk, (rule_matches ev v) eqn:E1,
    (existsb (rule_matches ev) sc) eqn:E2;
    state_cbv; cbn [existsb flat_map length]; rewrite ?E1, ?E2; state_cbv;
    rewrite <- ?app_assoc, ?Nat.add_succ_r; reflexivity.
Qed.

Lemma get_put_same k a s : get_set k (put_set k a s) = a.
Proof. now destruct k. Qed.

Lemma get_put_other k k' a s : k <> k' -> get_set k (put_set k' a s) = get_set k s.
Proof. destruct k, k'; simpl; congruence. Qed.

Lemma get_set_log k c s : get_set k (log_call c s) = get_set k s.
Proof. now destruct k. Qed.

Lemma get_set_matched k b s : get_set k (set_rule_matched b s) = get_set k s.
Proof. now destruct k. Qed.

Lemma fire_rule_at k i v ev s :
  arr (get_set k s) !! i = Some v ->
  fire_rule (Some (k, i)) ev s
  = Ret (rule_matches ev v, log_call (rule_calls ev v) s).
Proof.
  intros Hv. unfold fire_rule, load_rule, rule_calls, rule_matches.
  rewrite Hv. cbn [bind].
  destruct (rule_test v ev) as [m seen]; cbn [fst snd].
  destruct m; [now rewrite log_call_app|].
  now rewrite app_nil_r.
Qed.

Lemma rule_loop_spec k fo mk ev : forall fuel did s,
  (current (get_set k s) <= num (get_set k s))%nat ->
  (num (get_set k s) <= length (arr (get_set k s)))%nat ->
  (num (get_set k s) - current (get_set k s) <= fuel)%nat ->
  let sc := scanned fo did ev (drop (current (get_set k s)) (live (get_set k s))) in
  rule_loop k fo mk fuel ev did s
  = Ret (did || existsb (rule_matches ev) sc, after_loop k mk sc ev s).
Proof.
  induction fuel as [|fuel IH]; intros did s Hc Hn Hf sc; subst sc.
  - assert (E : current (get_set k s) = num (get_set k s)) by lia.
    simpl. unfold array_done. rewrite E, Nat.eqb_refl. simpl.
    unfold live. rewrite drop_ge by (rewrite length_take; lia).
    unfold scanned. destruct (fo && did); simpl;
      now rewrite orb_false_r, after_loop_nil.
  - simpl. unfold array_done at 1.
    destruct (Nat.eqb_spec (current (get_set k s)) (num (get_set k s))) as [E|E].
    + simpl. unfold live. rewrite drop_ge by (rewrite length_take; lia).
      unfold scanned. destruct (fo && did); simpl;
        now rewrite orb_false_r, after_loop_nil.
    + simpl. unfold scanned. destruct (fo && did) eqn:Es; simpl.
      * now rewrite orb_false_r, after_loop_nil.
      * destruct (drop_live_cons (get_set k s)) as (v & Hv & Hd); [lia | lia |].
        rewrite Hd. simpl scan.
        unfold next_in, array_next, array_done.
        destruct (Nat.eqb_spec (current (get_set k s)) (num (get_set k s)));
          [contradiction|].
        change {| arr := arr (get_set k s); num := num (get_set k s);
                  current := S (current (get_set k s)) |}
          with (set_cursor (S (current (get_set k s))) (get_set k s)).
        pose proof (after_loop_cons k mk ev v) as AC.
        set (s1 := put_set k (set_cursor (S (current (get_set k s))) (get_set k s)) s) in *.
        assert (G : get_set k s1
                    = set_cursor (S (current (get_set k s))) (get_set k s))
          by apply get_put_same.
        cbn [option_map].
        rewrite (fire_rule_at k _ v) by (rewrite G; exact Hv).
        cbn [bind].
        assert (G' : forall b, get_set k (if mk then set_rule_matched b
                          (log_call (rule_calls ev v) s1)
                        else log_call (rule_calls ev v) s1)
                     = set_cursor (S (current (get_set k s))) (get_set k s)).
        { intros b. destruct mk; now rewrite ?get_set_matched, get_set_log. }
        destruct (rule_matches ev v) eqn:Em.
        -- rewrite IH by (rewrite G'; simpl; lia).
           rewrite G'. cbn [current set_cursor].
           change (live (set_cursor (S (current (get_set k s))) (get_set k s)))
             with (live (get_set k s)).
           unfold scanned.
           cbn [existsb]. rewrite Em. cbn [orb]. rewrite orb_true_r.
           rewrite <- AC. cbv zeta. rewrite !andb_true_r. reflexivity.
        -- rewrite <- (get_set_log k (rule_calls ev v) s1) in G.
           rewrite IH by (rewrite G; simpl; lia).
           rewrite G. cbn [current set_cursor].
           change (live (set_cursor (S (current (get_set k s))) (get_set k s)))
             with (live (get_set k s)).
           unfold scanned. rewrite Es, andb_false_r.
           cbn [existsb]. rewrite Em. cbn [orb].
           rewrite <- AC. cbv zeta. rewrite ?andb_false_r. reflexivity.
Qed.

Lemma run_production_eq pckt now s :
  wf s -> type pckt = HCI_EVENT_PKT ->
  run_production pckt now s
  = Ret (let (did, s1) := after_rules (event_of pckt) s in
         production_end (event_of pckt) now did s1).
Proof.
  intros (Hn & He & Hg) Ht. unfold run_production.
  rewrite Ht, Z.eqb_refl. cbn [negb]. cbv zeta.
  set (ev := event_of pckt).
  destruct Hn as [Hn1 Hn2], He as [He1 He2], Hg as [Hg1 Hg2].
  destruct s as [? ? uc ? ? ? ? ? [na nn nc] [ea en ec] [ga gn gc] ? ?].
  cbn [arr num normal_set exclusive_set global_set] in *.
  rewrite rule_loop_spec; [| state_cbv; lia ..].
  cbn [bind].
  rewrite rule_loop_spec; [| state_cbv; lia ..].
  cbn [bind].
  match goal with
  | |- context [if negb ?b then _ else _] => destruct b eqn:Em
  end; cbn [negb].
  all: try (rewrite rule_loop_spec; [| state_cbv; lia ..]).
  all: cbn [bind].
  all: unfold after_rules, production_end, scanned, live in *.
  all: destruct uc as [[|a f]|].
  all: unfold call_until, timeout.
  all: state_cbv in Em; state_cbv.
  all: rewrite ?drop_0, ?scan_all in *.
  all: cbn [Nat.add]; rewrite <- ?app_assoc, ?app_nil_r.
  all: repeat case_atom; try discriminate;
    rewrite <- ?app_assoc, ?app_nil_r; reflexivity.
Qed.

(** ** The order in which rules fire *)

Lemma event_actions_app l1 l2 :
  event_actions (l1 ++ l2) = event_actions l1 ++ event_actions l2.
Proof. apply List.filter_app. Qed.

Lemma event_actions_rule_calls ev r :
  event_actions (rule_calls ev r)
  = if rule_matches ev r then rule_action r ev else [].
Proof.
  unfold rule_calls, rule_matches, rule_test, rule_action.
  destruct (check_type r); cbn [fst snd];
    try (destruct (check4event _ _ _); destruct (event_action r); reflexivity).
  destruct (event_condition r) as [c|]; cbn [fst snd];
    [destruct (cond_fn c ev) | ]; destruct (event_action r); reflexivity.
Qed.

Lemma event_actions_first ev l :
  event_actions (flat_map (rule_calls ev) (scan true ev l))
  = action_of ev (first_match ev l).
Proof.
  unfold first_match.
  induction l as [|r l IH]; [reflexivity|].
  cbn [scan flat_map List.find andb].
  rewrite event_actions_app, event_actions_rule_calls.
  destruct (rule_matches ev r); cbn [flat_map action_of].
  - now rewrite app_nil_r.
  - exact IH.
Qed.



(** What [run_production] leaves in the fields that the rules phase
    touches, for an event packet. *)
Lemma run_production_summary pckt now s :
  wf s -> type pckt = HCI_EVENT_PKT ->
  let ev := event_of pckt in
  let ex := live (exclusive_set s) in
  let nm := live (normal_set s) in
  let gl := live (global_set s) in
  let m := existsb (rule_matches ev) ex || existsb (rule_matches ev) nm in
  exists r s',
    run_production pckt now s = Ret (r, s')
    /\ trace s' = trace s
                  ++ flat_map (rule_calls ev) (scan true ev ex)
                  ++ flat_map (rule_calls ev) nm
                  ++ (if m then [] else flat_map (rule_calls ev) (scan true ev gl))
                  ++ until_calls (until_condition s) ev
    /\ rule_matched s' = rule_matched s || m
    /\ global_set s' = (if m then global_set s
                        else set_cursor (length (scan true ev gl)) (global_set s))
    /\ current_exclusive_rule s' = length (scan true ev ex)
    /\ (r = -1 -> m || existsb (rule_matches ev) gl = false).
Proof.
  intros Hwf Ht ev ex nm gl m. rewrite run_production_eq by assumption.
  fold ev. subst ex nm gl m.
  unfold after_rules, production_end, call_until, timeout, live.
  rewrite !existsb_scan.
  destruct s as [? ? [[|a f]|] ? ? ? ? ? [na nn nc] [ea en ec] [ga gn gc] ? ?];
    state_cbv; cbn [until_calls];
    repeat case_atom;
    (eexists; eexists; split; [reflexivity|]);
    state_cbv; rewrite <- ?app_assoc, ?app_nil_r;
    repeat split; try reflexivity; try discriminate;
    now destruct rule_matched0.
Qed.



(** ** Productions without an until condition *)

(** C6.  A production with neither an until predicate nor an until event
    match is completed by the first event packet dispatched, whatever the
    rules did with it: [run_production] returns 0. *)
Theorem C6_no_until_single_shot pckt now s :
  wf s -> type pckt = HCI_EVENT_PKT ->
  until_condition s = None -> until_check s = no_check ->
  exists s', run_production pckt now s = Ret (0, s').
Proof.
  intros Hwf Ht Hu Hc. rewrite run_production_eq by assumption.
  unfold after_rules, production_end.
  destruct s as [? ? uc ch ? ? ? ? [na nn nc] [ea en ec] [ga gn gc] ? ?].
  cbn [until_condition until_check] in Hu, Hc. subst uc ch.
  state_cbv. cbn [check_eqb]. eexists. reflexivity.
Qed.

Lemma C6_witness :
  wf demo_state /\ type (event_packet 5 []) = HCI_EVENT_PKT
  /\ until_condition demo_state = None /\ until_check demo_state = no_check
  /\ exists s', run_production (event_packet 5 []) 0 demo_state = Ret (0, s').
Proof.
  assert (Hwf : wf demo_state) by wf_concrete.
  split; [exact Hwf|]. do 3 (split; [reflexivity|]).
  exact (C6_no_until_single_shot (event_packet 5 []) 0 demo_state
           Hwf eq_refl eq_refl eq_refl).
Defined.

(** ** What a completed production clears *)

(** The dispatch below completes the production; the timeout and the start
    instant stay as they were set, and the flag goes from false to true. *)
Lemma C5_counterexample :
  exists s',
    run_production (event_packet 16 []) 150 timed_state = Ret (0, s')
    /\ timeout_milliseconds s' = 100 /\ production_start s' = 5
    /\ rule_matched timed_state = false /\ rule_matched s' = true
    /\ ~ all_cleared timed_state s'.
Proof.
  eexists. split; [vm_compute; reflexivity|].
  repeat split; try reflexivity.
  intros (_ & _ & _ & _ & H & _). vm_compute in H. discriminate H.
Qed.

(** C5 (amended).  When a dispatch completes a production (returns 0), the
    normal and the exclusive rule sets are emptied and the until predicate
    and the until event match are cleared; the global rules and their count
    are as before; the timeout and the start instant are not cleared; and
    the flag [rule_matched] is not reset: it is true when it was true
    before or when an exclusive or normal rule matched in this dispatch. *)
Theorem C5_done_clears pckt now s :
  wf s ->
  exists r s',
    run_production pckt now s = Ret (r, s')
    /\ (r = 0 ->
        num_rules s' = 0%nat /\ num_exclusive_rules s' = 0%nat
        /\ until_condition s' = None
        /\ until_check s' = no_check /\ until_check_event s' = 0
        /\ global_rules s' = global_rules s
        /\ num_global_rules s' = num_global_rules s
        /\ timeout_milliseconds s' = timeout_milliseconds s
        /\ production_start s' = production_start s
        /\ rule_matched s'
           = rule_matched s
             || (existsb (rule_matches (event_of pckt)) (live (exclusive_set s))
                 || existsb (rule_matches (event_of pckt)) (live (normal_set s)))).
Proof.
  intros Hwf.
  destruct (Z.eqb_spec (type pckt) HCI_EVENT_PKT) as [Ht|Ht].
  - rewrite run_production_eq by assumption.
    unfold after_rules, production_end, call_until, timeout, live.
    rewrite !existsb_scan.
    destruct s as [? ? [[|a f]|] ? ? ? ? ? [na nn nc] [ea en ec] [ga gn gc] ? ?];
      state_cbv;
      repeat case_atom;
      (eexists; eexists; split; [reflexivity|]);
      intros Hr; try discriminate Hr;
      state_cbv; repeat split; reflexivity.
  - exists (-1), s. unfold run_production.
    destruct (Z.eqb_spec (type pckt) HCI_EVENT_PKT); [contradiction|].
    split; [reflexivity | discriminate].
Qed.

Lemma C5_witness :
  wf timed_state
  /\ exists r s',
       run_production (event_packet 16 []) 150 timed_state = Ret (r, s')
       /\ (r = 0 ->
           num_rules s' = 0%nat /\ num_exclusive_rules s' = 0%nat
           /\ until_condition s' = None
           /\ until_check s' = no_check /\ until_check_event s' = 0
           /\ global_rules s' = global_rules timed_state
           /\ num_global_rules s' = num_global_rules timed_state
           /\ timeout_milliseconds s' = timeout_milliseconds timed_state
           /\ production_start s' = production_start timed_state
           /\ rule_matched s'
              = rule_matched timed_state
                || (existsb (rule_matches (event_of (event_packet 16 [])))
                      (live (exclusive_set timed_state))
                    || existsb (rule_matches (event_of (event_packet 16 [])))
                         (live (normal_set timed_state)))).
Proof.
  assert (Hwf : wf timed_state) by wf_concrete.
  split; [exact Hwf|].
  exact (C5_done_clears (event_packet 16 []) 150 timed_state Hwf).
Defined.

(** ** Rules without an action *)

Lemma scan_first_at ev pre v post :
  existsb (rule_matches ev) pre = false -> rule_matches ev v = true ->
  scan true ev (pre ++ v :: post) = pre ++ [v].
Proof.
  intros Hpre Hv. induction pre as [|r pre IH]; cbn [scan app andb].
  - now rewrite Hv.
  - cbn [existsb] in Hpre. apply orb_false_iff in Hpre as [Hr Hpre].
    rewrite Hr. f_equal. now apply IH.
Qed.

Lemma existsb_In_true ev v l :
  In v l -> rule_matches ev v = true -> existsb (rule_matches ev) l = true.
Proof. intros Hin Hv. apply existsb_exists. now exists v. Qed.

(** C10.  A rule that matches the dispatched event and has no action
    ([event_action] is [NULL]) still counts as fired: [fire_rule] returns
    true for it without calling any action; as the first matching exclusive
    rule it ends the iteration over the exclusive rules (the cursor stops
    right behind it); as an exclusive or as a normal rule it sets
    [rule_matched]; and in both cases the global rules are not evaluated
    for that event and the dispatch does not report "no rule ran". *)
Theorem C10_rule_without_action_fires pckt now s v :
  wf s -> type pckt = HCI_EVENT_PKT ->
  rule_matches (event_of pckt) v = true -> event_action v = None ->
  let ev := event_of pckt in
  (forall k i s0, arr (get_set k s0) !! i = Some v ->
     fire_rule (Some (k, i)) ev s0
     = Ret (true, log_call (snd (rule_test v ev)) s0))
  /\ exists r s',
       run_production pckt now s = Ret (r, s')
       /\ (forall pre post,
             live (exclusive_set s) = pre ++ v :: post ->
             existsb (rule_matches ev) pre = false ->
             current_exclusive_rule s' = S (length pre)
             /\ rule_matched s' = true
             /\ global_set s' = global_set s /\ r <> -1)
       /\ (In v (live (normal_set s)) ->
           rule_matched s' = true
           /\ global_set s' = global_set s /\ r <> -1).
Proof.
  intros Hwf Ht Hv Ha ev. split.
  - intros k i s0 Hi. rewrite (fire_rule_at k i v) by exact Hi.
    fold ev in Hv. rewrite Hv. do 2 f_equal.
    unfold rule_calls, rule_action. fold ev. now rewrite Hv, Ha, app_nil_r.
  - destruct (run_production_summary pckt now s Hwf Ht)
      as (r & s' & Hrun & _ & Hrm & Hgl & Hcur & Hr).
    fold ev in Hrm, Hgl, Hcur, Hr.
    exists r, s'. split; [exact Hrun|]. split.
    + intros pre post Hex Hpre.
      assert (Hm : existsb (rule_matches ev) (live (exclusive_set s)) = true).
      { rewrite Hex, existsb_app, Hpre. cbn [existsb orb].
        fold ev in Hv. now rewrite Hv. }
      rewrite Hm in Hrm, Hgl, Hr. cbn [orb] in Hrm, Hgl, Hr.
      rewrite orb_true_r in Hrm.
      rewrite Hex, (scan_first_at ev pre v post Hpre Hv) in Hcur.
      rewrite length_app in Hcur. cbn [length] in Hcur.
      split; [lia|]. split; [exact Hrm|]. split; [exact Hgl|].
      intros E. specialize (Hr E). discriminate Hr.
    + intros Hin.
      assert (Hm : existsb (rule_matches ev) (live (normal_set s)) = true)
        by (eapply existsb_In_true; eassumption).
      rewrite Hm in Hrm, Hgl, Hr. rewrite !orb_true_r in Hrm, Hgl, Hr.
      cbn [orb] in Hr, Hgl. rewrite ?orb_true_r in Hrm.
      split; [exact Hrm|]. split; [exact Hgl|].
      intros E. specialize (Hr E). discriminate Hr.
Qed.

Lemma C10_witness :
  wf silent_state /\ type (event_packet 16 []) = HCI_EVENT_PKT
  /\ rule_matches (event_of (event_packet 16 [])) silent_rule = true
  /\ event_action silent_rule = None
  /\ (let ev := event_of (event_packet 16 []) in
      (forall k i s0, arr (get_set k s0) !! i = Some silent_rule ->
         fire_rule (Some (k, i)) ev s0
         = Ret (true, log_call (snd (rule_test silent_rule ev)) s0))
      /\ exists r s',
           run_production (event_packet 16 []) 0 silent_state = Ret (r, s')
           /\ (forall pre post,
                 live (exclusive_set silent_state) = pre ++ silent_rule :: post ->
                 existsb (rule_matches ev) pre = false ->
                 current_exclusive_rule s' = S (length pre)
                 /\ rule_matched s' = true
                 /\ global_set s' = global_set silent_state /\ r <> -1)
           /\ (In silent_rule (live (normal_set silent_state)) ->
               rule_matched s' = true
               /\ global_set s' = global_set silent_state /\ r <> -1)).
Proof.
  assert (Hwf : wf silent_state) by wf_concrete.
  split; [exact Hwf|]. do 3 (split; [reflexivity|]).
  exact (C10_rule_without_action_fires (event_packet 16 []) 0 silent_state
           silent_rule Hwf eq_refl eq_refl eq_refl).
Defined.

(** ** met_expectations *)

(** C4 (the code at the failing input).  The first production fires its
    rule on event 16 and completes.  The second production is completed by
    event 3, which none of its rules matches: no callback is invoked during
    it, and [met_expectations] still returns true. *)
Theorem C4_flag_survives_production :
  exists s1 s2 s3,
    run_production (event_packet 16 []) 0 first_production = Ret (0, s1)
    /\ met_expectations s1 = true
    /\ configure_second s1 = Ret s2
    /\ existsb (rule_matches (event_of (event_packet 3 [])))
         (live (exclusive_set s2)) = false
    /\ existsb (rule_matches (event_of (event_packet 3 [])))
         (live (normal_set s2)) = false
    /\ run_production (event_packet 3 []) 0 s2 = Ret (0, s3)
    /\ trace s3 = trace s2
    /\ met_expectations s3 = true.
Proof.
  do 3 eexists.
  split; [vm_compute; reflexivity|].
  split; [reflexivity|].
  split; [vm_compute; reflexivity|].
  split; [reflexivity|]. split; [reflexivity|].
  split; [vm_compute; reflexivity|].
  split; reflexivity.
Qed.

(** ** Capacity of the rule arrays *)

(** C7 (the code at the failing input).  With the normal rule array full
    and no dispatch made yet, [new_rule] does not return [NULL]: it hands
    out the address one past the last slot and raises the count to 21; the
    write of [expect] through that address is outside the array. *)
Theorem C7_add_at_capacity_not_rejected :
  wf full_state /\ num_rules full_state = MAX_RULES
  /\ current_rule full_state = 0%nat
  /\ fst (new_rule full_state) = Some (Normal, 20%nat)
  /\ num_rules (snd (new_rule full_state)) = 21%nat
  /\ expect event_check 16 None 0%nat full_state = Fault
  /\ exists s',
       run_production (event_packet 16 []) 0 full_state = Ret (0, s')
       /\ num_rules s' = 0%nat /\ current_rule s' = MAX_RULES
       /\ new_rule s' = (None, s').
Proof.
  do 6 (split; [vm_compute; (lia || reflexivity)|]).
  eexists. split; [vm_compute; reflexivity|].
  repeat split.
Qed.

(** ** The matcher for vendor event codes *)

(** C8 (the code at the failing input).  The check kind [ecode] does not
    look at the event code of the packet: an LE meta event whose payload
    starts with the bytes of 0x0401 matches the vendor event code 0x0401. *)
Theorem C8_ecode_ignores_event_code :
  evt meta_event <> EVT_VENDOR
  /\ check4event meta_event ecode 1025 = true.
Proof. split; [discriminate | reflexivity]. Qed.

(** ** Timeouts *)

(** Neither a dispatch 150 ms after the start of a production with a
    100 ms timeout, nor the first dispatch of a production with a timeout
    of zero, completes the production: [run_production] returns -1.  With
    [timeout] as the until predicate and a timeout of zero, a dispatch at
    the very clock reading of the start does not complete it either. *)
Lemma C3_counterexample :
  wrap_ulong (production_start race_state + timeout_milliseconds race_state) < 150
  /\ run_production (event_packet 1 []) 150 race_state = Ret (-1, race_state)
  /\ timeout_milliseconds zero_timeout_state = 0
  /\ run_production (event_packet 1 []) 150 zero_timeout_state
     = Ret (-1, zero_timeout_state)
  /\ run_production (event_packet 1 []) 0
       (until (Some timeout_ptr) zero_timeout_state)
     = Ret (-1, until (Some timeout_ptr) zero_timeout_state).
Proof. repeat split; vm_compute; reflexivity. Qed.

(** C3 (amended).  For a production whose until predicate is the engine's
    [timeout] function, with the timeout T set by [set_timeout], a dispatch
    of an event packet at a clock reading later than
    [(production_start + T) mod 2^32] completes the production (returns 0),
    whether or not the until event arrived and whatever the rules did; with
    T equal to zero this is every event packet dispatched at a clock reading
    later than the start of the production. *)
Theorem C3_until_timeout_completes pckt now s :
  wf s -> type pckt = HCI_EVENT_PKT ->
  until_condition s = Some timeout_ptr ->
  (wrap_ulong (production_start s + timeout_milliseconds s) < now
   \/ (timeout_milliseconds s = 0
       /\ 0 <= production_start s < ULONG_MODULUS /\ production_start s < now)) ->
  exists s', run_production pckt now s = Ret (0, s').
Proof.
  intros Hwf Ht Hu Hlate.
  assert (Hlt : (wrap_ulong (production_start s + timeout_milliseconds s) <? now)
                = true).
  { apply Z.ltb_lt. destruct Hlate as [H | (H0 & Hr & H)]; [exact H|].
    rewrite H0, Z.add_0_r. unfold wrap_ulong.
    rewrite Z.mod_small by exact Hr. exact H. }
  rewrite run_production_eq by assumption.
  unfold after_rules, production_end, call_until, timeout.
  destruct s as [? ? uc ? ? ? ? ? [na nn nc] [ea en ec] [ga gn gc] ? ?].
  cbn [until_condition production_start timeout_milliseconds] in Hu, Hlt.
  subst uc. state_cbv. rewrite Hlt.
  repeat case_atom; eexists; reflexivity.
Qed.

Lemma C3_witness :
  wf until_timeout_state /\ type (event_packet 1 []) = HCI_EVENT_PKT
  /\ until_condition until_timeout_state = Some timeout_ptr
  /\ (wrap_ulong (production_start until_timeout_state
                  + timeout_milliseconds until_timeout_state) < 150
      \/ (timeout_milliseconds until_timeout_state = 0
          /\ 0 <= production_start until_timeout_state < ULONG_MODULUS
          /\ production_start until_timeout_state < 150))
  /\ exists s', run_production (event_packet 1 []) 150 until_timeout_state
               = Ret (0, s').
Proof.
  assert (Hwf : wf until_timeout_state) by wf_concrete.
  assert (Hlate : wrap_ulong (production_start until_timeout_state
                              + timeout_milliseconds until_timeout_state) < 150
                  \/ (timeout_milliseconds until_timeout_state = 0
                      /\ 0 <= production_start until_timeout_state < ULONG_MODULUS
                      /\ production_start until_timeout_state < 150))
    by (left; vm_compute; reflexivity).
  split; [exact Hwf|]. do 2 (split; [reflexivity|]). split; [exact Hlate|].
  exact (C3_until_timeout_completes (event_packet 1 []) 150 until_timeout_state
           Hwf eq_refl eq_refl Hlate).
Defined.

(** ** The perform action *)

Lemma no_perform_app l1 l2 :
  no_perform (l1 ++ l2) = no_perform l1 && no_perform l2.
Proof. apply forallb_app. Qed.

Lemma no_perform_rule_calls ev l : no_perform (flat_map (rule_calls ev) l) = true.
Proof.
  induction l as [|r l IH]; [reflexivity|].
  cbn [flat_map]. rewrite no_perform_app, IH, andb_true_r.
  unfold rule_calls, rule_test, rule_action.
  destruct (check_type r), (event_condition r), (event_action r),
    (rule_matches ev r); reflexivity.
Qed.

Lemma no_perform_until u ev : no_perform (until_calls u ev) = true.
Proof. now destruct u as [[|a f]|]. Qed.

(** [run_production] always returns on a well-formed store, keeps the store
    well formed, leaves the pending perform action alone and calls no
    perform action. *)
Lemma run_production_keeps pckt now s :
  wf s ->
  exists r s' new,
    run_production pckt now s = Ret (r, s')
    /\ wf s' /\ action s' = action s /\ perform_args s' = perform_args s
    /\ trace s' = trace s ++ new /\ no_perform new = true.
Proof.
  intros Hwf.
  destruct (Z.eqb_spec (type pckt) HCI_EVENT_PKT) as [Ht|Ht].
  - destruct (run_production_summary pckt now s Hwf Ht)
      as (r & s' & Hrun & Htr & _).
    exists r, s'. eexists. split; [exact Hrun|].
    assert (Hk : wf s' /\ action s' = action s /\ perform_args s' = perform_args s).
    { clear Htr. rewrite run_production_eq in Hrun by assumption.
      injection Hrun as Hrun. revert Hrun.
      unfold after_rules, production_end, call_until, timeout, wf, wf_array in *.
      destruct s as [? ? [[|a f]|] ? ? ? ? ? [na nn nc] [ea en ec] [ga gn gc] ? ?];
        state_cbv; state_cbv in Hwf;
        repeat case_atom; intros Hrun; injection Hrun as _ <-;
        state_cbv; repeat split; solve [reflexivity | lia | apply Hwf]. }
    destruct Hk as (Hw & Ha & Hp).
    split; [exact Hw|]. split; [exact Ha|]. split; [exact Hp|].
    split; [exact Htr|].
    rewrite !no_perform_app, !no_perform_rule_calls, no_perform_until.
    now destruct (_ || _); rewrite ?no_perform_rule_calls.
  - exists (-1), s, []. unfold run_production.
    destruct (Z.eqb_spec (type pckt) HCI_EVENT_PKT); [contradiction|].
    rewrite app_nil_r. split; [reflexivity|]. split; [exact Hwf|].
    repeat split.
Qed.

Lemma dispatch_all_keeps evs : forall s,
  wf s ->
  exists s' new,
    dispatch_all evs s = Ret s'
    /\ wf s' /\ action s' = action s
    /\ trace s' = trace s ++ new /\ no_perform new = true.
Proof.
  induction evs as [|[pckt now] evs IH]; intros s Hwf.
  - exists s, []. rewrite app_nil_r. split; [reflexivity|].
    split; [exact Hwf|]. repeat split.
  - destruct (run_production_keeps pckt now s Hwf)
      as (r & s1 & n1 & Hrun & Hw1 & Ha1 & _ & Ht1 & Hn1).
    destruct (IH s1 Hw1) as (s2 & n2 & Hd & Hw2 & Ha2 & Ht2 & Hn2).
    exists s2, (n1 ++ n2). cbn [dispatch_all]. rewrite Hrun. cbn [bind].
    split; [exact Hd|]. split; [exact Hw2|]. split; [congruence|].
    split; [rewrite Ht2, Ht1; now rewrite app_assoc|].
    now rewrite no_perform_app, Hn1, Hn2.
Qed.

Lemma clear_current_protocol_wf s : wf s -> wf (clear_current_protocol s).
Proof.
  unfold wf, wf_array, clear_current_protocol.
  destruct s as [? ? ? ? ? ? ? ? [na nn nc] [ea en ec] [ga gn gc] ? ?].
  state_cbv. intros H. repeat split; solve [apply H | lia].
Qed.

Lemma run_action_only_once_wf s : wf s -> wf (snd (run_action_only_once s)).
Proof.
  unfold run_action_only_once. destruct (action s); [|trivial].
  cbn [snd]. now destruct s.
Qed.

Lemma after_yield_spec s :
  wf s ->
  wf (after_yield s)
  /\ trace (after_yield s) = trace s ++ perform_calls (action s) (perform_args s)
  /\ action (after_yield s) = None
  /\ run_action_only_once (after_yield s) = (true, after_yield s)
  /\ (perform_result s = false ->
      current_protocol (after_yield s) = None
      /\ num_rules (after_yield s) = 0%nat
      /\ num_exclusive_rules (after_yield s) = 0%nat
      /\ until_condition (after_yield s) = None
      /\ until_check (after_yield s) = no_check).
Proof.
  intros Hwf. pose proof (run_action_only_once_wf s Hwf) as Hw1.
  unfold after_yield, perform_result. unfold run_action_only_once in *.
  destruct (action s) as [a|] eqn:Ea; cbn [snd negb perform_calls] in *.
  - destruct (act_fn a (perform_args s)); cbn [negb].
    + split; [exact Hw1|]. do 3 (split; [reflexivity|]). discriminate.
    + split; [now apply clear_current_protocol_wf|].
      destruct s; repeat split.
  - split; [exact Hwf|]. rewrite app_nil_r, Ea.
    do 3 (split; [reflexivity|]). discriminate.
Qed.

Lemma close_step_yield c ps cond state s :
  yields c ps = true ->
  snd (close_step c (Reached ps cond) state s) = after_yield s
  /\ (perform_result s = false ->
      snd (fst (close_step c (Reached ps cond) state s)) = state).
Proof.
  intros Hy. unfold close_step, RUN_PRODUCTION, RUN_PRODUCTION_AND_REPEAT_IF,
    after_yield, perform_result, run_action_only_once.
  destruct c; cbn [yields] in Hy; subst; cbn [negb];
    destruct (action s) as [a|]; cbn [negb snd fst];
    try destruct (act_fn a (perform_args s)); cbn [negb snd fst];
    split; solve [reflexivity | discriminate].
Qed.

(** C2.  The perform action of a production is invoked by the yield macro
    that starts the production ([RUN_PRODUCTION], or
    [RUN_PRODUCTION_AND_REPEAT_IF] when it does not return early), once:
    the yield adds the one call to the trace and forgets the action, so
    that running [run_action_only_once] again invokes nothing, and the
    dispatches that follow evaluate rules without ever invoking a perform
    action.  If the perform action returns false the protocol is aborted:
    the current protocol, the normal and exclusive rules and both until
    conditions are cleared, and the step counter is not advanced. *)
Theorem C2_perform_once_before_rules c ps cond state s evs :
  wf s ->
  exists r state' s1 s2 new,
    close_step c (Reached ps cond) state s = (r, state', s1)
    /\ trace s1 = trace s ++ (if yields c ps
                              then perform_calls (action s) (perform_args s)
                              else [])
    /\ (yields c ps = true ->
        action s1 = None /\ run_action_only_once s1 = (true, s1))
    /\ dispatch_all evs s1 = Ret s2
    /\ trace s2 = trace s1 ++ new
    /\ no_perform new = true
    /\ (yields c ps = true -> perform_result s = false ->
        current_protocol s1 = None
        /\ num_rules s1 = 0%nat /\ num_exclusive_rules s1 = 0%nat
        /\ until_condition s1 = None /\ until_check s1 = no_check
        /\ state' = state).
Proof.
  intros Hwf.
  destruct (close_step c (Reached ps cond) state s) as [[r state'] s1] eqn:Ec.
  destruct (yields c ps) eqn:Hy.
  - destruct (close_step_yield c ps cond state s Hy) as [Hs Hst].
    rewrite Ec in Hs, Hst. cbn [fst snd] in Hs, Hst. subst s1.
    destruct (after_yield_spec s Hwf) as (Hw & Ht & Ha & Hr & Hc).
    destruct (dispatch_all_keeps evs _ Hw) as (s2 & new & Hd & _ & _ & Ht2 & Hn).
    exists r, state', (after_yield s), s2, new.
    split; [reflexivity|]. split; [exact Ht|]. split; [now split|].
    split; [exact Hd|]. split; [exact Ht2|]. split; [exact Hn|].
    intros _ Hp. destruct (Hc Hp) as (H1 & H2 & H3 & H4 & H5).
    repeat split; auto.
  - assert (Es : s1 = s).
    { destruct c; [discriminate Hy|]. cbn [yields] in Hy. subst ps.
      cbn in Ec. congruence. }
    subst s1.
    destruct (dispatch_all_keeps evs s Hwf) as (s2 & new & Hd & _ & _ & Ht2 & Hn).
    exists r, state', s, s2, new.
    split; [reflexivity|]. split; [now rewrite app_nil_r|].
    split; [discriminate|]. split; [exact Hd|]. split; [exact Ht2|].
    split; [exact Hn | discriminate].
Qed.

Lemma C2_witness :
  wf failing_perform_state
  /\ exists r state' s1 s2 new,
       close_step Plain (Reached true false) 3 failing_perform_state
       = (r, state', s1)
       /\ trace s1 = trace failing_perform_state
                     ++ (if yields Plain true
                         then perform_calls (action failing_perform_state)
                                (perform_args failing_perform_state)
                         else [])
       /\ (yields Plain true = true ->
           action s1 = None /\ run_action_only_once s1 = (true, s1))
       /\ dispatch_all [(event_packet 16 [], 0)] s1 = Ret s2
       /\ trace s2 = trace s1 ++ new
       /\ no_perform new = true
       /\ (yields Plain true = true ->
           perform_result failing_perform_state = false ->
           current_protocol s1 = None
           /\ num_rules s1 = 0%nat /\ num_exclusive_rules s1 = 0%nat
           /\ until_condition s1 = None /\ until_check s1 = no_check
           /\ state' = 3).
Proof.
  assert (Hwf : wf failing_perform_state) by wf_concrete.
  split; [exact Hwf|].
  exact (C2_perform_once_before_rules Plain true false 3 failing_perform_state
           [(event_packet 16 [], 0)] Hwf).
Defined.

(** ** The step counter of a protocol body *)


Lemma walk_steps_at last now : forall l c i code cl s,
  l !! i = Some (code, cl) ->
  0 <= c -> c + Z.of_nat (length l) < 65536 ->
  walk_steps l last c now (c + Z.of_nat i) s
  = (do (e, s1) <- code now s; Ret (close_step cl e (c + Z.of_nat i) s1)).
Proof.
  induction l as [|[code0 cl0] l IH]; intros c i code cl s Hi Hc Hlen.
  - discriminate Hi.
  - destruct i as [|i].
    + injection Hi as -> ->. cbn [walk_steps].
      now rewrite Z.add_0_r, Z.eqb_refl.
    + cbn [walk_steps lookup list_lookup] in Hi |- *.
      destruct (Z.eqb_spec (c + Z.of_nat (S i)) c) as [E|_]; [lia|].
      cbn [length] in Hlen.
      replace (wrap_u16 (c + 1)) with (c + 1)
        by (unfold wrap_u16; rewrite Z.mod_small; lia).
      replace (c + Z.of_nat (S i)) with (c + 1 + Z.of_nat i) by lia.
      apply IH; [exact Hi | lia | lia].
Qed.



(** * Part three: further properties of the code *)

(** ** When a dispatch completes a production *)

(** X1.  A dispatch of an event packet completes the production (returns 0)
    exactly when no until is configured at all, or the until predicate
    holds of the event, or the until event matches it; what the rules did
    with the event plays no part. *)
Theorem dispatch_completes_iff pckt now s :
  wf s -> type pckt = HCI_EVENT_PKT ->
  exists r s',
    run_production pckt now s = Ret (r, s')
    /\ (r = 0 <-> completes (event_of pckt) now s = true).
Proof.
  intros Hwf Ht. rewrite run_production_eq by assumption.
  unfold after_rules, production_end, completes, no_until, until_holds,
    until_event_holds, call_until, timeout.
  destruct s as [? ? [[|a f]|] ? ? ? ? ? [na nn nc] [ea en ec] [ga gn gc] ? ?];
    state_cbv; cbn [fst];
    repeat case_atom;
    (eexists; eexists; split; [reflexivity|]);
    split; intros H; solve [reflexivity | discriminate H].
Qed.

Lemma dispatch_completes_iff_witness :
  wf demo_state /\ type (event_packet 16 []) = HCI_EVENT_PKT
  /\ exists r s',
       run_production (event_packet 16 []) 0 demo_state = Ret (r, s')
       /\ (r = 0 <-> completes (event_of (event_packet 16 [])) 0 demo_state = true).
Proof.
  assert (Hwf : wf demo_state) by wf_concrete.
  split; [exact Hwf|]. split; [reflexivity|].
  exact (dispatch_completes_iff (event_packet 16 []) 0 demo_state Hwf eq_refl).
Defined.

(** X2.  A dispatch of an event packet that does not complete the
    production returns 1 when some exclusive, normal or global rule matched
    the event and -1 when none did, and it keeps the production armed: the
    normal and exclusive rules in use and both until conditions are as
    before. *)
Theorem dispatch_keeps_running pckt now s :
  wf s -> type pckt = HCI_EVENT_PKT ->
  completes (event_of pckt) now s = false ->
  exists r s',
    run_production pckt now s = Ret (r, s')
    /\ r = (if any_match (event_of pckt) s then 1 else -1)
    /\ live (normal_set s') = live (normal_set s)
    /\ live (exclusive_set s') = live (exclusive_set s)
    /\ until_condition s' = until_condition s
    /\ until_check s' = until_check s
    /\ until_check_event s' = until_check_event s.
Proof.
  intros Hwf Ht. rewrite run_production_eq by assumption.
  unfold after_rules, production_end, completes, no_until, until_holds,
    until_event_holds, any_match, call_until, timeout, live.
  rewrite !existsb_scan.
  destruct s as [? ? [[|a f]|] ? ? ? ? ? [na nn nc] [ea en ec] [ga gn gc] ? ?];
    state_cbv; cbn [fst];
    repeat case_atom; intros Hc; try discriminate Hc;
    (eexists; eexists; split; [reflexivity|]);
    state_cbv; repeat split; reflexivity.
Qed.

(** The demo store with an until event that event 16 does not match. *)
Lemma dispatch_keeps_running_witness :
  wf (until_event event_check 9 demo_state)
  /\ type (event_packet 16 []) = HCI_EVENT_PKT
  /\ completes (event_of (event_packet 16 [])) 0
       (until_event event_check 9 demo_state) = false
  /\ exists r s',
       run_production (event_packet 16 []) 0 (until_event event_check 9 demo_state)
       = Ret (r, s')
       /\ r = (if any_match (event_of (event_packet 16 []))
                   (until_event event_check 9 demo_state) then 1 else -1)
       /\ live (normal_set s') = live (normal_set (until_event event_check 9 demo_state))
       /\ live (exclusive_set s')
          = live (exclusive_set (until_event event_check 9 demo_state))
       /\ until_condition s' = until_condition (until_event event_check 9 demo_state)
       /\ until_check s' = until_check (until_event event_check 9 demo_state)
       /\ until_check_event s'
          = until_check_event (until_event event_check 9 demo_state).
Proof.
  assert (Hwf : wf (until_event event_check 9 demo_state)) by wf_concrete.
  split; [exact Hwf|]. do 2 (split; [reflexivity|]).
  exact (dispatch_keeps_running (event_packet 16 []) 0
           (until_event event_check 9 demo_state) Hwf eq_refl eq_refl).
Defined.

(** ** What a dispatch never touches *)

Lemma run_production_frame pckt now s :
  wf s ->
  exists r s',
    run_production pckt now s = Ret (r, s')
    /\ wf s'
    /\ action s' = action s /\ perform_args s' = perform_args s
    /\ current_protocol s' = current_protocol s
    /\ production_start s' = production_start s
    /\ timeout_milliseconds s' = timeout_milliseconds s
    /\ rules s' = rules s /\ exclusive_rules s' = exclusive_rules s
    /\ global_rules s' = global_rules s
    /\ num_global_rules s' = num_global_rules s
    /\ (rule_matched s = true -> rule_matched s' = true).
Proof.
  intros Hwf.
  destruct (Z.eqb_spec (type pckt) HCI_EVENT_PKT) as [Ht|Ht].
  - rewrite run_production_eq by assumption.
    unfold after_rules, production_end, call_until, timeout, wf, wf_array in *.
    destruct s as [? ? [[|a f]|] ? ? ? ? ? [na nn nc] [ea en ec] [ga gn gc] ? ?];
      state_cbv; state_cbv in Hwf;
      repeat case_atom;
      (eexists; eexists; split; [reflexivity|]);
      state_cbv;
      (split; [repeat split; solve [apply Hwf | lia]|]);
      repeat split; solve [reflexivity | discriminate | intros H; exact H].
  - exists (-1), s. unfold run_production.
    destruct (Z.eqb_spec (type pckt) HCI_EVENT_PKT); [contradiction|].
    split; [reflexivity|]. split; [exact Hwf|]. repeat split. auto.
Qed.

(** X3.  No sequence of dispatches ever touches the pending perform
    action, the current protocol, the timeout and its start instant, the
    slots of the three rule arrays or the number of global rules; and none
    resets the flag [rule_matched] once it is true. *)
Theorem dispatches_frame evs : forall s,
  wf s ->
  exists s',
    dispatch_all evs s = Ret s'
    /\ action s' = action s /\ perform_args s' = perform_args s
    /\ current_protocol s' = current_protocol s
    /\ production_start s' = production_start s
    /\ timeout_milliseconds s' = timeout_milliseconds s
    /\ rules s' = rules s /\ exclusive_rules s' = exclusive_rules s
    /\ global_rules s' = global_rules s
    /\ num_global_rules s' = num_global_rules s
    /\ (rule_matched s = true -> rule_matched s' = true).
Proof.
  induction evs as [|[pckt now] evs IH]; intros s Hwf.
  - exists s. split; [reflexivity|]. repeat split. auto.
  - destruct (run_production_frame pckt now s Hwf)
      as (r & s1 & Hrun & Hw1 & A1 & A2 & A3 & A4 & A5 & A6 & A7 & A8 & A9 & A10).
    destruct (IH s1 Hw1)
      as (s2 & Hd & B1 & B2 & B3 & B4 & B5 & B6 & B7 & B8 & B9 & B10).
    exists s2. cbn [dispatch_all]. rewrite Hrun. cbn [bind].
    split; [exact Hd|].
    repeat split; try congruence. auto.
Qed.

Lemma dispatches_frame_witness :
  wf timed_state
  /\ exists s',
       dispatch_all [(event_packet 16 [], 150); (event_packet 3 [], 200)] timed_state
       = Ret s'
       /\ action s' = action timed_state
       /\ perform_args s' = perform_args timed_state
       /\ current_protocol s' = current_protocol timed_state
       /\ production_start s' = production_start timed_state
       /\ timeout_milliseconds s' = timeout_milliseconds timed_state
       /\ rules s' = rules timed_state
       /\ exclusive_rules s' = exclusive_rules timed_state
       /\ global_rules s' = global_rules timed_state
       /\ num_global_rules s' = num_global_rules timed_state
       /\ (rule_matched timed_state = true -> rule_matched s' = true).
Proof.
  assert (Hwf : wf timed_state) by wf_concrete.
  split; [exact Hwf|].
  exact (dispatches_frame [(event_packet 16 [], 150); (event_packet 3 [], 200)]
           timed_state Hwf).
Defined.

(** X4.  Packets that are not event packets are invisible: dispatching a
    sequence of packets gives the same result as dispatching only the
    event packets among them. *)
Theorem non_event_packets_invisible evs : forall s,
  dispatch_all evs s = dispatch_all (List.filter is_event_pckt evs) s.
Proof.
  induction evs as [|[pckt now] evs IH]; intros s; [reflexivity|].
  cbn [List.filter]. unfold is_event_pckt at 1. cbn [fst].
  destruct (type pckt =? HCI_EVENT_PKT) eqn:Et.
  - cbn [dispatch_all]. destruct (run_production pckt now s) as [[r s1]| |];
      cbn [bind]; [apply IH | reflexivity | reflexivity].
  - cbn [dispatch_all]. unfold run_production. rewrite Et. cbn [negb bind].
    apply IH.
Qed.

(** ** Adding rules *)

Lemma add_rule_ok k v s :
  wf s ->
  current (get_set k s) <> MAX_RULES -> (num (get_set k s) < MAX_RULES)%nat ->
  exists s',
    (let (r, s1) := new_in k s in store_rule r v s1) = Ret s'
    /\ wf s'
    /\ live (get_set k s') = live (get_set k s) ++ [v]
    /\ current (get_set k s') = current (get_set k s)
    /\ same_but_set k s s'.
Proof.
  intros Hwf Hc Hn. unfold new_in, array_new.
  destruct (Nat.eqb_spec (current (get_set k s)) MAX_RULES) as [E|_];
    [contradiction|].
  cbn [option_map store_rule]. rewrite get_put_same. cbn [arr num current].
  assert (Hl : length (arr (get_set k s)) = MAX_RULES)
    by (destruct Hwf as (H1 & H2 & H3), k; [apply H1 | apply H2 | apply H3]).
  destruct (Nat.ltb_spec (num (get_set k s)) (length (arr (get_set k s))))
    as [_|Hge]; [|lia].
  eexists. split; [reflexivity|].
  split; [|split; [|split]].
  - unfold wf, wf_array in *.
    destruct s as [? ? ? ? ? ? ? ? [na nn nc] [ea en ec] [ga gn gc] ? ?], k;
      state_cbv; state_cbv in Hwf; state_cbv in Hn;
      rewrite ?length_insert; repeat split; solve [apply Hwf | lia].
  - rewrite get_put_same. unfold live. cbn [arr num].
    rewrite (take_S_r _ _ v) by (apply list_lookup_insert_eq; lia).
    now rewrite take_insert_ge by lia.
  - now rewrite get_put_same.
  - split; [intros k' Hk; destruct k, k'; solve [reflexivity | contradiction]|].
    destruct k; repeat split.
Qed.

(** X5.  [expect], [expect_ex] and [expect_globally] append: on a store
    whose set is not full and whose cursor is not at [MAX_RULES], the call
    returns, the rules in use of that set are the old ones followed by the
    new rule, the store stays well formed and nothing else changes. *)
Theorem expect_appends k c code act args s :
  wf s ->
  current (get_set k s) <> MAX_RULES -> (num (get_set k s) < MAX_RULES)%nat ->
  exists s',
    expect_in k c code act args s = Ret s'
    /\ wf s'
    /\ live (get_set k s') = live (get_set k s) ++ [check_rule c code act args]
    /\ same_but_set k s s'.
Proof.
  intros Hwf Hc Hn.
  destruct (add_rule_ok k (check_rule c code act args) s Hwf Hc Hn)
    as (s' & Hs & Hw & Hl & _ & Hsame).
  exists s'. split; [|auto].
  rewrite <- Hs. now destruct k.
Qed.

Lemma expect_appends_witness :
  wf demo_state
  /\ current (get_set Normal demo_state) <> MAX_RULES
  /\ (num (get_set Normal demo_state) < MAX_RULES)%nat
  /\ exists s',
       expect_in Normal event_check 5 (Some 8%nat) 0%nat demo_state = Ret s'
       /\ wf s'
       /\ live (get_set Normal s')
          = live (get_set Normal demo_state)
            ++ [check_rule event_check 5 (Some 8%nat) 0%nat]
       /\ same_but_set Normal demo_state s'.
Proof.
  assert (Hwf : wf demo_state) by wf_concrete.
  assert (Hc : current (get_set Normal demo_state) <> MAX_RULES)
    by (vm_compute; lia).
  assert (Hn : (num (get_set Normal demo_state) < MAX_RULES)%nat)
    by (vm_compute; lia).
  split; [exact Hwf|]. split; [exact Hc|]. split; [exact Hn|].
  exact (expect_appends Normal event_check 5 (Some 8%nat) 0%nat demo_state
           Hwf Hc Hn).
Defined.

(** X6.  [expect_condition], [expect_ex_condition] and
    [expect_globally_condition] append in the same way a rule of check
    kind [condition_check] with event code 0. *)
Theorem expect_condition_appends k cond act args s :
  wf s ->
  current (get_set k s) <> MAX_RULES -> (num (get_set k s) < MAX_RULES)%nat ->
  exists s',
    expect_condition_in k cond act args s = Ret s'
    /\ wf s'
    /\ live (get_set k s') = live (get_set k s) ++ [condition_rule cond act args]
    /\ same_but_set k s s'.
Proof.
  intros Hwf Hc Hn.
  destruct (add_rule_ok k (condition_rule cond act args) s Hwf Hc Hn)
    as (s' & Hs & Hw & Hl & _ & Hsame).
  exists s'. split; [|auto].
  rewrite <- Hs. now destruct k.
Qed.

Lemma expect_condition_appends_witness :
  wf demo_state
  /\ current (get_set Global demo_state) <> MAX_RULES
  /\ (num (get_set Global demo_state) < MAX_RULES)%nat
  /\ exists s',
       expect_condition_in Global None (Some 8%nat) 0%nat demo_state = Ret s'
       /\ wf s'
       /\ live (get_set Global s')
          = live (get_set Global demo_state)
            ++ [condition_rule None (Some 8%nat) 0%nat]
       /\ same_but_set Global demo_state s'.
Proof.
  assert (Hwf : wf demo_state) by wf_concrete.
  assert (Hc : current (get_set Global demo_state) <> MAX_RULES)
    by (vm_compute; lia).
  assert (Hn : (num (get_set Global demo_state) < MAX_RULES)%nat)
    by (vm_compute; lia).
  split; [exact Hwf|]. split; [exact Hc|]. split; [exact Hn|].
  exact (expect_condition_appends Global None (Some 8%nat) 0%nat demo_state
           Hwf Hc Hn).
Defined.

(** X7.  After the dispatch of an event packet on a store with
    [MAX_RULES] normal rules the cursor [current_rule] stands at
    [MAX_RULES], and every later [expect] and [expect_condition] is dropped
    without any change of the store, also when that dispatch completed the
    production and emptied the set. *)
Theorem expect_dropped_after_full_dispatch pckt now s :
  wf s -> type pckt = HCI_EVENT_PKT -> num_rules s = MAX_RULES ->
  exists r s',
    run_production pckt now s = Ret (r, s')
    /\ current_rule s' = MAX_RULES
    /\ (r = 0 -> num_rules s' = 0%nat)
    /\ (forall c code act args, expect c code act args s' = Ret s')
    /\ (forall cond act args, expect_condition cond act args s' = Ret s').
Proof.
  intros Hwf Ht Hfull.
  assert (Hlen : length (live (normal_set s)) = MAX_RULES).
  { unfold live. destruct Hwf as ((Hl & Hn) & _).
    unfold num_rules in Hfull. rewrite length_take. lia. }
  revert Hlen. rewrite run_production_eq by assumption.
  unfold after_rules, production_end, call_until, timeout.
  destruct s as [? ? [[|a f]|] ? ? ? ? ? [na nn nc] [ea en ec] [ga gn gc] ? ?];
    state_cbv; intros Hlen;
    repeat case_atom;
    (eexists; eexists; split; [reflexivity|]);
    state_cbv;
    (split; [exact Hlen|]);
    (split; [intros H; solve [reflexivity | discriminate H]|]);
    (split; intros;
       unfold expect, expect_condition, new_rule, new_in, array_new;
       state_cbv; rewrite Hlen; reflexivity).
Qed.

Lemma expect_dropped_after_full_dispatch_witness :
  wf full_state /\ type (event_packet 16 []) = HCI_EVENT_PKT
  /\ num_rules full_state = MAX_RULES
  /\ exists r s',
       run_production (event_packet 16 []) 0 full_state = Ret (r, s')
       /\ current_rule s' = MAX_RULES
       /\ (r = 0 -> num_rules s' = 0%nat)
       /\ (forall c code act args, expect c code act args s' = Ret s')
       /\ (forall cond act args, expect_condition cond act args s' = Ret s').
Proof.
  assert (Hwf : wf full_state) by wf_concrete.
  split; [exact Hwf|]. do 2 (split; [reflexivity|]).
  exact (expect_dropped_after_full_dispatch (event_packet 16 []) 0 full_state
           Hwf eq_refl eq_refl).
Defined.

(** ** After the current protocol is cleared *)

(** X8.  After [clear_current_protocol] no protocol is running, and the
    next event packet goes to the global rules only: the dispatch invokes
    at most the action of the first matching global rule, completes at once
    (returns 0) and leaves [met_expectations] false. *)
Theorem dispatch_after_clear_goes_to_globals pckt now s :
  wf s -> type pckt = HCI_EVENT_PKT ->
  protocol_running (clear_current_protocol s) = false
  /\ exists s' new,
       run_production pckt now (clear_current_protocol s) = Ret (0, s')
       /\ trace s' = trace s ++ new
       /\ event_actions new
          = action_of (event_of pckt)
              (first_match (event_of pckt) (live (global_set s)))
       /\ met_expectations s' = false
       /\ protocol_running s' = false.
Proof.
  intros Hwf Ht. split; [now destruct s|].
  pose proof (clear_current_protocol_wf s Hwf) as Hw.
  destruct (run_production_summary pckt now _ Hw Ht)
    as (r & s' & Hrun & Htr & Hrm & _).
  assert (Hk : r = 0 /\ current_protocol s' = None).
  { clear Htr Hrm. rewrite run_production_eq in Hrun by assumption.
    unfold after_rules, production_end, clear_current_protocol in Hrun.
    destruct s as [? ? ? ? ? ? ? ? [na nn nc] [ea en ec] [ga gn gc] ? ?].
    state_cbv in Hrun. cbn [check_eqb] in Hrun.
    injection Hrun as <- <-. split; reflexivity. }
  destruct Hk as [-> Hcp].
  assert (Hn : live (normal_set (clear_current_protocol s)) = [])
    by now destruct s as [? ? ? ? ? ? ? ? [na nn nc] [ea en ec] [ga gn gc] ? ?].
  assert (He : live (exclusive_set (clear_current_protocol s)) = [])
    by now destruct s as [? ? ? ? ? ? ? ? [na nn nc] [ea en ec] [ga gn gc] ? ?].
  assert (Hg : live (global_set (clear_current_protocol s)) = live (global_set s))
    by now destruct s as [? ? ? ? ? ? ? ? [na nn nc] [ea en ec] [ga gn gc] ? ?].
  assert (Hu : until_condition (clear_current_protocol s) = None)
    by now destruct s.
  assert (Ht0 : trace (clear_current_protocol s) = trace s) by now destruct s.
  assert (Hm0 : rule_matched (clear_current_protocol s) = false) by now destruct s.
  rewrite Hn, He, Hg, Hu, Ht0 in Htr. rewrite Hn, He, Hm0 in Hrm.
  cbn [scan flat_map existsb orb app until_calls] in Htr, Hrm.
  exists s'. eexists. split; [exact Hrun|]. split; [exact Htr|].
  split; [|split].
  - rewrite app_nil_r. apply event_actions_first.
  - exact Hrm.
  - unfold protocol_running. now rewrite Hcp.
Qed.

Lemma dispatch_after_clear_goes_to_globals_witness :
  wf demo_state /\ type (event_packet 16 []) = HCI_EVENT_PKT
  /\ protocol_running (clear_current_protocol demo_state) = false
  /\ exists s' new,
       run_production (event_packet 16 []) 0 (clear_current_protocol demo_state)
       = Ret (0, s')
       /\ trace s' = trace demo_state ++ new
       /\ event_actions new
          = action_of (event_of (event_packet 16 []))
              (first_match (event_of (event_packet 16 []))
                 (live (global_set demo_state)))
       /\ met_expectations s' = false
       /\ protocol_running s' = false.
Proof.
  assert (Hwf : wf demo_state) by wf_concrete.
  split; [exact Hwf|]. split; [reflexivity|].
  exact (dispatch_after_clear_goes_to_globals (event_packet 16 []) 0 demo_state
           Hwf eq_refl).
Defined.

(** ** The event matcher *)

(** The matcher never matches with the check kinds [no_check] and
    [condition_check]; [event_check] matches exactly the packets with that
    event code; [le_meta_event_check] only LE meta events with that
    subevent; and [reset_reason] and [procedure_complete] match vendor
    events only, with the vendor event codes of "HAL initialized" and of
    "GAP procedure complete". *)
Lemma check4event_kinds ev code :
  check4event ev no_check code = false
  /\ check4event ev condition_check code = false
  /\ (check4event ev event_check code = true <-> evt ev = code)
  /\ (check4event ev le_meta_event_check code = true <->
      evt ev = EVT_LE_META_EVENT /\ subevent (data ev) = code)
  /\ (check4event ev reset_reason code = true <->
      evt ev = EVT_VENDOR
      /\ blue_ecode (data ev) = EVT_BLUE_HAL_INITIALIZED
      /\ reason_code (data ev) = code)
  /\ (check4event ev procedure_complete code = true <->
      evt ev = EVT_VENDOR
      /\ blue_ecode (data ev) = EVT_BLUE_GAP_PROCEDURE_COMPLETE
      /\ procedure_code (blue_data (data ev)) = code).
Proof.
  unfold check4event.
  split; [reflexivity|]. split; [reflexivity|]. split; [apply Z.eqb_eq|].
  split; [|split].
  - destruct (Z.eqb_spec (evt ev) EVT_LE_META_EVENT) as [E|E];
      rewrite ?Z.eqb_eq; intuition (discriminate || congruence).
  - destruct (Z.eqb_spec (evt ev) EVT_VENDOR) as [E|E];
      [destruct (Z.eqb_spec (blue_ecode (data ev)) EVT_BLUE_HAL_INITIALIZED)|];
      rewrite ?Z.eqb_eq; intuition (discriminate || congruence).
  - destruct (Z.eqb_spec (evt ev) EVT_VENDOR) as [E|E];
      [destruct (Z.eqb_spec (blue_ecode (data ev))
                   EVT_BLUE_GAP_PROCEDURE_COMPLETE)|];
      rewrite ?Z.eqb_eq; intuition (discriminate || congruence).
Qed.

(** X9.  With the check kind [reset_reason] the reason is read from the
    first payload byte, which is also the low byte of the vendor event
    code; so on a packet of bytes the only code [reset_reason] can match is
    the vendor event code of "HAL initialized" itself. *)
Theorem reset_reason_matches_one_code ev code :
  0 <= byte_at (data ev) 0 < 256 -> 0 <= byte_at (data ev) 1 < 256 ->
  check4event ev reset_reason code = true ->
  code = EVT_BLUE_HAL_INITIALIZED.
Proof.
  intros H0 H1. unfold check4event, blue_ecode, reason_code,
    EVT_BLUE_HAL_INITIALIZED.
  destruct (evt ev =? EVT_VENDOR); [|discriminate].
  destruct (Z.eqb_spec (byte_at (data ev) 0 + 256 * byte_at (data ev) 1) 1)
    as [E|]; [|discriminate].
  intros Hm. apply Z.eqb_eq in Hm. lia.
Qed.

Lemma reset_reason_matches_one_code_witness :
  0 <= byte_at (data hal_initialized_event) 0 < 256
  /\ 0 <= byte_at (data hal_initialized_event) 1 < 256
  /\ check4event hal_initialized_event reset_reason 1 = true
  /\ 1 = EVT_BLUE_HAL_INITIALIZED.
Proof.
  assert (H0 : 0 <= byte_at (data hal_initialized_event) 0 < 256)
    by (cbn; lia).
  assert (H1 : 0 <= byte_at (data hal_initialized_event) 1 < 256)
    by (cbn; lia).
  split; [exact H0|]. split; [exact H1|]. split; [reflexivity|].
  exact (reset_reason_matches_one_code hal_initialized_event 1 H0 H1 eq_refl).
Defined.

(** ** The timeout predicate *)

(** As long as [production_start + timeout_milliseconds] stays below
    the range of [unsigned long], [timeout] holds exactly at the clock
    readings later than that sum. *)
Lemma timeout_exact now s :
  0 <= production_start s -> 0 <= timeout_milliseconds s ->
  production_start s + timeout_milliseconds s < ULONG_MODULUS ->
  (timeout now s = true <-> production_start s + timeout_milliseconds s < now).
Proof.
  intros Hs Ht Hlt. unfold timeout, wrap_ulong.
  rewrite Z.mod_small by lia. apply Z.ltb_lt.
Qed.



(** X11.  A production given [set_timeout(T)] at the clock reading [t0] and
    [until(timeout)], with no until event, runs for [T] milliseconds: a
    dispatch of an event packet completes it exactly when the clock reads
    more than [t0 + T] (the sum within the range of [unsigned long]). *)
Theorem timed_production_runs_for_T T t0 pckt now s :
  wf s -> type pckt = HCI_EVENT_PKT -> until_check s = no_check ->
  0 <= t0 -> 0 <= T -> t0 + T < ULONG_MODULUS ->
  exists r s',
    run_production pckt now (until (Some timeout_ptr) (set_timeout T t0 s))
    = Ret (r, s')
    /\ (r = 0 <-> t0 + T < now).
Proof.
  intros Hwf Ht Hc H0 HT Hlt.
  assert (Hw : wf (until (Some timeout_ptr) (set_timeout T t0 s)))
    by (destruct s; exact Hwf).
  rewrite run_production_eq by assumption.
  unfold after_rules, production_end, call_until, timeout, until, set_timeout,
    start_timeout, wrap_ulong.
  destruct s as [? ? ? uc ? ? ? ? [na nn nc] [ea en ec] [ga gn gc] ? ?].
  cbn [until_check] in Hc. subst uc.
  state_cbv. cbn [check_eqb]. rewrite Z.mod_small by lia.
  destruct (Z.ltb_spec (t0 + T) now) as [Hn|Hn];
    repeat case_atom;
    (eexists; eexists; split; [reflexivity|]);
    split; intros H; solve [reflexivity | exact Hn | discriminate H | lia].
Qed.

Lemma timed_production_runs_for_T_witness :
  wf demo_state /\ type (event_packet 16 []) = HCI_EVENT_PKT
  /\ until_check demo_state = no_check
  /\ 0 <= 5 /\ 0 <= 100 /\ 5 + 100 < ULONG_MODULUS
  /\ exists r s',
       run_production (event_packet 16 []) 50
         (until (Some timeout_ptr) (set_timeout 100 5 demo_state))
       = Ret (r, s')
       /\ (r = 0 <-> 5 + 100 < 50).
Proof.
  assert (Hwf : wf demo_state) by wf_concrete.
  assert (H1 : 0 <= 5) by discriminate.
  assert (H2 : 0 <= 100) by discriminate.
  assert (H3 : 5 + 100 < ULONG_MODULUS) by reflexivity.
  split; [exact Hwf|]. do 2 (split; [reflexivity|]).
  split; [exact H1|]. split; [exact H2|]. split; [exact H3|].
  exact (timed_production_runs_for_T 100 5 (event_packet 16 []) 50 demo_state
           Hwf eq_refl eq_refl H1 H2 H3).
Defined.

(** ** The protocol stepper *)

Lemma walk_steps_last last now : forall l c s,
  0 <= c -> c + Z.of_nat (length l) < 65536 ->
  walk_steps l last c now (c + Z.of_nat (length l)) s
  = (do (e, s1) <- last now s;
     match e with
     | Returned v => Ret (v, c + Z.of_nat (length l), s1)
     | Reached ps _ => Ret (END_PROTOCOL ps s1)
     end).
Proof.
  induction l as [|[code0 cl0] l IH]; intros c s Hc Hlen.
  - cbn [walk_steps length]. now rewrite Z.add_0_r, Z.eqb_refl.
  - cbn [walk_steps]. cbn [length] in Hlen |- *.
    destruct (Z.eqb_spec (c + Z.of_nat (S (length l))) c) as [E|_]; [lia|].
    replace (wrap_u16 (c + 1)) with (c + 1)
      by (unfold wrap_u16; rewrite Z.mod_small; lia).
    replace (c + Z.of_nat (S (length l))) with (c + 1 + Z.of_nat (length l)) by lia.
    apply IH; lia.
Qed.

(** X12.  A call of a protocol body runs exactly one step, the one whose
    index is the step counter, and closes it with the macro of that step;
    only the step of index 0 registers the protocol as the current one. *)
Theorem protocol_body_runs_step p now i code cl s :
  steps p !! i = Some (code, cl) ->
  Z.of_nat (length (steps p)) < 65536 ->
  protocol_body p now (Z.of_nat i) s
  = (do (e, s1) <- code now (match i with
                            | O => set_current_protocol (protocol_addr p) s
                            | S _ => s
                            end);
     Ret (close_step cl e (Z.of_nat i) s1)).
Proof.
  intros Hi Hlen. unfold protocol_body.
  pose proof (walk_steps_at (last_step p) now (steps p) 0 i code cl) as W.
  rewrite !Z.add_0_l in W. rewrite W by (assumption || lia).
  now destruct i.
Qed.

Lemma protocol_body_runs_step_witness :
  steps two_step !! 1%nat = Some (idle_step, Plain)
  /\ Z.of_nat (length (steps two_step)) < 65536
  /\ protocol_body two_step 0 (Z.of_nat 1) initial_state
     = (do (e, s1) <- idle_step 0 initial_state;
        Ret (close_step Plain e (Z.of_nat 1) s1)).
Proof.
  assert (H1 : steps two_step !! 1%nat = Some (idle_step, Plain)) by reflexivity.
  assert (H2 : Z.of_nat (length (steps two_step)) < 65536) by reflexivity.
  split; [exact H1|]. split; [exact H2|].
  exact (protocol_body_runs_step two_step 0 1 idle_step Plain initial_state H1 H2).
Defined.

Lemma call_body_from p now :
  Z.of_nat (length (steps p)) < 65536 ->
  (forall code cl, In (code, cl) (steps p) ->
     cl = Plain
     /\ forall t s0, exists ps cond s1,
          code t s0 = Ret (Reached ps cond, s1) /\ perform_result s1 = true) ->
  forall k i s0, (i + k <= length (steps p))%nat ->
    exists s', call_body k p now (Z.of_nat i) s0 = Ret (Z.of_nat (i + k), s').
Proof.
  intros Hlen Hsteps.
  induction k as [|k IH]; intros i s0 Hik.
  - exists s0. cbn [call_body]. now rewrite Nat.add_0_r.
  - destruct (lookup_lt_is_Some_2 (steps p) i) as [[code cl] Hi]; [lia|].
    destruct (Hsteps code cl) as [-> Hcode].
    { apply list_elem_of_In. eapply list_elem_of_lookup_2. exact Hi. }
    cbn [call_body]. unfold protocol_body.
    set (s1 := if Z.of_nat i =? 0 then _ else s0).
    destruct (Hcode now s1) as (ps & cond & s2 & Hrun & Hp).
    pose proof (walk_steps_at (last_step p) now (steps p) 0 i code Plain s1 Hi)
      as W.
    rewrite !Z.add_0_l in W. rewrite W by lia. rewrite Hrun. cbn [bind close_step].
    unfold RUN_PRODUCTION, run_action_only_once.
    unfold perform_result in Hp.
    destruct (action s2) as [a|]; [rewrite Hp|]; cbn [negb];
      (replace (wrap_u16 (Z.of_nat i + 1)) with (Z.of_nat (S i))
         by (unfold wrap_u16; rewrite Z.mod_small; lia));
      (replace (i + S k)%nat with (S i + k)%nat by lia);
      apply IH; lia.
Qed.

Lemma call_body_snoc p now : forall k st s0 state s1,
  call_body k p now st s0 = Ret (state, s1) ->
  call_body (S k) p now st s0
  = (do (r, state1, s2) <- protocol_body p now state s1; Ret (state1, s2)).
Proof.
  induction k as [|k IH]; intros st s0 state s1 H.
  - cbn [call_body] in H |- *. injection H as <- <-.
    destruct (protocol_body p now st s0) as [[[r st1] s2]| |]; reflexivity.
  - cbn [call_body] in H.
    change (call_body (S (S k)) p now st s0)
      with (do (r, state1, s2) <- protocol_body p now st s0;
            call_body (S k) p now state1 s2).
    destruct (protocol_body p now st s0) as [[[r st1] s2]| |];
      cbn [bind] in H |- *; try discriminate H.
    now apply IH.
Qed.

(** X13.  A protocol whose steps all reach [RUN_PRODUCTION] with a perform
    action that succeeds, and whose last step reaches [END_PROTOCOL], is
    back at its start after as many calls as it has steps: the step
    counter is 0 again, no protocol is current, the normal and exclusive
    rules and the until conditions are cleared and the flag
    [rule_matched] is reset. *)
Theorem protocol_runs_to_end p now s :
  Z.of_nat (length (steps p)) < 65536 ->
  (forall code cl, In (code, cl) (steps p) ->
     cl = Plain
     /\ forall t s0, exists ps cond s1,
          code t s0 = Ret (Reached ps cond, s1) /\ perform_result s1 = true) ->
  (forall t s0, exists ps cond s1, last_step p t s0 = Ret (Reached ps cond, s1)) ->
  exists s',
    call_body (S (length (steps p))) p now 0 s = Ret (0, s')
    /\ protocol_running s' = false
    /\ num_rules s' = 0%nat /\ num_exclusive_rules s' = 0%nat
    /\ until_condition s' = None /\ until_check s' = no_check
    /\ rule_matched s' = false.
Proof.
  intros Hlen Hsteps Hlast.
  destruct (call_body_from p now Hlen Hsteps (length (steps p)) 0 s)
    as (s1 & Hs1); [lia|].
  change (Z.of_nat 0) with 0 in Hs1. rewrite Nat.add_0_l in Hs1.
  rewrite (call_body_snoc _ _ _ _ _ _ _ Hs1). unfold protocol_body.
  set (s1' := if Z.of_nat (length (steps p)) =? 0 then _ else s1).
  pose proof (walk_steps_last (last_step p) now (steps p) 0 s1') as W.
  rewrite !Z.add_0_l in W. rewrite W by lia.
  destruct (Hlast now s1') as (ps & cond & s2 & Hl). rewrite Hl. cbn [bind].
  unfold END_PROTOCOL. eexists. split; [reflexivity|].
  destruct s2; repeat split.
Qed.

Lemma protocol_runs_to_end_witness :
  Z.of_nat (length (steps two_step)) < 65536
  /\ (forall code cl, In (code, cl) (steps two_step) ->
        cl = Plain
        /\ forall t s0, exists ps cond s1,
             code t s0 = Ret (Reached ps cond, s1) /\ perform_result s1 = true)
  /\ (forall t s0, exists ps cond s1,
        last_step two_step t s0 = Ret (Reached ps cond, s1))
  /\ exists s',
       call_body (S (length (steps two_step))) two_step 0 0 initial_state
       = Ret (0, s')
       /\ protocol_running s' = false
       /\ num_rules s' = 0%nat /\ num_exclusive_rules s' = 0%nat
       /\ until_condition s' = None /\ until_check s' = no_check
       /\ rule_matched s' = false.
Proof.
  assert (H2 : Z.of_nat (length (steps two_step)) < 65536) by (cbn; lia).
  assert (H3 : forall code cl, In (code, cl) (steps two_step) ->
            cl = Plain
            /\ forall t s0, exists ps cond s1,
                 code t s0 = Ret (Reached ps cond, s1)
                 /\ perform_result s1 = true).
  { intros code cl [E | [E | []]]; injection E as <- <-;
      (split; [reflexivity|]); intros t s0;
      exists true, false, (perform (Some ok_action) 0%nat s0);
      split; reflexivity. }
  assert (H4 : forall t s0, exists ps cond s1,
            last_step two_step t s0 = Ret (Reached ps cond, s1)).
  { intros t s0. exists true, false, (perform (Some ok_action) 0%nat s0).
    reflexivity. }
  split; [exact H2|]. split; [exact H3|]. split; [exact H4|].
  exact (protocol_runs_to_end two_step 0 initial_state H2 H3 H4).
Defined.

(** X14.  A step closed by [RUN_PRODUCTION_AND_REPEAT_IF] is run again at
    every call for as long as its condition holds: with the condition true
    and the perform action succeeding, any number of calls leaves the step
    counter on that step. *)
Theorem repeat_if_repeats p now i code n : forall s,
  steps p !! i = Some (code, RepeatIf) ->
  Z.of_nat (length (steps p)) < 65536 ->
  (forall t s0, exists s1,
     code t s0 = Ret (Reached true true, s1) /\ perform_result s1 = true) ->
  exists s', call_body n p now (Z.of_nat i) s = Ret (Z.of_nat i, s').
Proof.
  induction n as [|n IH]; intros s Hi Hlen Hcode.
  - exists s. reflexivity.
  - cbn [call_body]. unfold protocol_body.
    set (s1 := if Z.of_nat i =? 0 then _ else s).
    pose proof (walk_steps_at (last_step p) now (steps p) 0 i code RepeatIf s1 Hi)
      as W.
    rewrite !Z.add_0_l in W. rewrite W by lia.
    destruct (Hcode now s1) as (s2 & Hrun & Hp). rewrite Hrun.
    cbn [bind close_step].
    unfold RUN_PRODUCTION_AND_REPEAT_IF, run_action_only_once.
    unfold perform_result in Hp.
    destruct (action s2) as [a|]; [rewrite Hp|]; cbn [negb];
      apply IH; assumption.
Qed.

Lemma repeat_if_repeats_witness :
  steps looping_protocol !! 1%nat = Some (repeating_step, RepeatIf)
  /\ Z.of_nat (length (steps looping_protocol)) < 65536
  /\ (forall t s0, exists s1,
        repeating_step t s0 = Ret (Reached true true, s1)
        /\ perform_result s1 = true)
  /\ exists s',
       call_body 3 looping_protocol 0 (Z.of_nat 1) initial_state
       = Ret (Z.of_nat 1, s').
Proof.
  assert (H1 : steps looping_protocol !! 1%nat = Some (repeating_step, RepeatIf))
    by reflexivity.
  assert (H2 : Z.of_nat (length (steps looping_protocol)) < 65536) by (cbn; lia).
  assert (H3 : forall t s0, exists s1,
            repeating_step t s0 = Ret (Reached true true, s1)
            /\ perform_result s1 = true).
  { intros t s0. exists (perform (Some ok_action) 0%nat s0). split; reflexivity. }
  split; [exact H1|]. split; [exact H2|]. split; [exact H3|].
  exact (repeat_if_repeats looping_protocol 0 1 repeating_step 3 initial_state
           H1 H2 H3).
Defined.

(** ** The dispatcher *)

(** X15.  [run_current_protocol] calls no protocol body, and so moves no
    step counter, when no protocol is current, when the packet is not an
    event packet or when the dispatch does not complete the production:
    it then does what [run_production] does and nothing more. *)
Theorem dispatcher_calls_body_only_on_done table pckt now w :
  wf (engine w) ->
  current_protocol (engine w) = None
  \/ type pckt <> HCI_EVENT_PKT
  \/ completes (event_of pckt) now (engine w) = false ->
  exists r s',
    run_production pckt now (engine w) = Ret (r, s')
    /\ run_current_protocol table pckt now w
       = Ret {| engine := s'; step_of := step_of w |}.
Proof.
  intros Hwf Hcase.
  destruct (run_production_frame pckt now (engine w) Hwf)
    as (r & s' & Hrun & _ & _ & _ & Hcp & _).
  exists r, s'. split; [exact Hrun|].
  unfold run_current_protocol. rewrite Hrun. cbn [bind].
  destruct (Z.eqb_spec r 0) as [->|Hr]; [|reflexivity].
  destruct Hcase as [Hnone | [Hne | Hnc]].
  - unfold get_current_protocol. now rewrite Hcp, Hnone.
  - exfalso. unfold run_production in Hrun.
    destruct (Z.eqb_spec (type pckt) HCI_EVENT_PKT); [contradiction|].
    discriminate Hrun.
  - exfalso.
    destruct (Z.eqb_spec (type pckt) HCI_EVENT_PKT) as [Ht|Ht].
    + rewrite run_production_eq in Hrun by assumption.
      revert Hnc Hrun.
      unfold after_rules, production_end, completes, no_until, until_holds,
        until_event_holds, call_until, timeout.
      destruct (engine w)
        as [? ? [[|a f]|] ? ? ? ? ? [na nn nc] [ea en ec] [ga gn gc] ? ?];
        state_cbv; cbn [fst];
        repeat case_atom; intros Hnc Hrun;
        solve [discriminate Hnc | discriminate Hrun].
    + unfold run_production in Hrun.
      destruct (Z.eqb_spec (type pckt) HCI_EVENT_PKT); [contradiction|].
      discriminate Hrun.
Qed.

Lemma dispatcher_calls_body_only_on_done_witness :
  wf (engine {| engine := demo_state; step_of := fun _ => 0 |})
  /\ (current_protocol (engine {| engine := demo_state; step_of := fun _ => 0 |})
      = None
      \/ type (event_packet 16 []) <> HCI_EVENT_PKT
      \/ completes (event_of (event_packet 16 [])) 0
           (engine {| engine := demo_state; step_of := fun _ => 0 |}) = false)
  /\ exists r s',
       run_production (event_packet 16 []) 0
         (engine {| engine := demo_state; step_of := fun _ => 0 |}) = Ret (r, s')
       /\ run_current_protocol no_protocols (event_packet 16 []) 0
            {| engine := demo_state; step_of := fun _ => 0 |}
          = Ret {| engine := s';
                   step_of := step_of {| engine := demo_state;
                                         step_of := fun _ => 0 |} |}.
Proof.
  assert (Hwf : wf (engine {| engine := demo_state; step_of := fun _ => 0 |}))
    by wf_concrete.
  assert (Hc : current_protocol
                 (engine {| engine := demo_state; step_of := fun _ => 0 |}) = None
               \/ type (event_packet 16 []) <> HCI_EVENT_PKT
               \/ completes (event_of (event_packet 16 [])) 0
                    (engine {| engine := demo_state; step_of := fun _ => 0 |})
                  = false)
    by (left; reflexivity).
  split; [exact Hwf|]. split; [exact Hc|].
  exact (dispatcher_calls_body_only_on_done no_protocols (event_packet 16 []) 0
           {| engine := demo_state; step_of := fun _ => 0 |} Hwf Hc).
Defined.

Lemma run_production_single_shot pckt now s :
  wf s -> type pckt = HCI_EVENT_PKT -> no_until s = true ->
  exists s',
    run_production pckt now s = Ret (0, s')
    /\ wf s' /\ no_until s' = true
    /\ current_protocol s' = current_protocol s.
Proof.
  intros Hwf Ht. rewrite run_production_eq by assumption.
  unfold after_rules, production_end, no_until, wf, wf_array in *.
  destruct s as [? ? [u|] uc ? ? ? ? [na nn nc] [ea en ec] [ga gn gc] ? ?];
    state_cbv; state_cbv in Hwf; intros Hn; [discriminate Hn|].
  rewrite Hn. repeat case_atom; (eexists; split; [reflexivity|]); state_cbv;
    (split; [repeat split; solve [apply Hwf | lia]|]); repeat split.
Qed.

Lemma plain_step_closes code t st s0 :
  single_shot_step code -> wf s0 -> no_until s0 = true ->
  exists s2,
    (do (e, s1) <- code t s0; Ret (close_step Plain e st s1))
    = Ret (true, wrap_u16 (st + 1), s2)
    /\ wf s2 /\ no_until s2 = true
    /\ current_protocol s2 = current_protocol s0.
Proof.
  intros Hstep Hwf Hn.
  destruct (Hstep t s0 Hwf Hn) as (cond & s1 & Hrun & Hw1 & Hn1 & Hp & Hc).
  rewrite Hrun. cbn [bind close_step].
  unfold RUN_PRODUCTION, run_action_only_once. unfold perform_result in Hp.
  destruct (action s1) as [a|] eqn:Ea.
  - rewrite Hp. cbn [negb]. eexists. split; [reflexivity|].
    split; [now destruct s1|]. split; [now destruct s1|]. now destruct s1.
  - cbn [negb]. exists s1. auto.
Qed.

Lemma last_step_closes code t st s0 :
  single_shot_step code -> wf s0 -> no_until s0 = true ->
  exists s2,
    (do (e, s1) <- code t s0;
     match e with
     | Returned v => Ret (v, st, s1)
     | Reached ps _ => Ret (END_PROTOCOL ps s1)
     end)
    = Ret (true, 0, s2)
    /\ wf s2 /\ no_until s2 = true /\ current_protocol s2 = None.
Proof.
  intros Hstep Hwf Hn.
  destruct (Hstep t s0 Hwf Hn) as (cond & s1 & Hrun & Hw1 & Hn1 & Hp & Hc).
  rewrite Hrun. cbn [bind]. unfold END_PROTOCOL.
  eexists. split; [reflexivity|].
  split; [now apply clear_current_protocol_wf|]. now destruct s1.
Qed.

Lemma single_shot_event table f p pckt now w j :
  table f = Some p -> single_shot_protocol p ->
  type pckt = HCI_EVENT_PKT ->
  wf (engine w) -> no_until (engine w) = true ->
  current_protocol (engine w) = Some f -> step_of w f = Z.of_nat j ->
  (1 <= j <= length (steps p))%nat ->
  exists w',
    run_current_protocol table pckt now w = Ret w'
    /\ wf (engine w') /\ no_until (engine w') = true
    /\ (if (j <? length (steps p))%nat
        then current_protocol (engine w') = Some f
             /\ step_of w' f = Z.of_nat (S j)
        else current_protocol (engine w') = None /\ step_of w' f = 0).
Proof.
  intros Htab (Hlen & Hsteps & Hlast) Ht Hwf Hn Hcp Hst Hj.
  destruct (run_production_single_shot pckt now (engine w) Hwf Ht Hn)
    as (s' & Hrun & Hw' & Hn' & Hcp').
  unfold run_current_protocol. rewrite Hrun. cbn [bind Z.eqb].
  unfold get_current_protocol. rewrite Hcp', Hcp.
  unfold call_protocol. cbn [engine step_of]. rewrite Htab, Hst.
  unfold protocol_body.
  destruct (Z.eqb_spec (Z.of_nat j) 0) as [E|_]; [lia|].
  destruct (Nat.ltb_spec j (length (steps p))) as [Hlt|Hge].
  - destruct (lookup_lt_is_Some_2 (steps p) j) as [[code cl] Hi]; [lia|].
    destruct (Hsteps code cl) as [-> Hcode].
    { apply list_elem_of_In. eapply list_elem_of_lookup_2. exact Hi. }
    pose proof (walk_steps_at (last_step p) now (steps p) 0 j code Plain s' Hi)
      as W.
    rewrite !Z.add_0_l in W. rewrite W by lia.
    destruct (plain_step_closes code now (Z.of_nat j) s' Hcode Hw' Hn')
      as (s2 & Hclose & Hw2 & Hn2 & Hc2).
    rewrite Hclose. cbn [bind negb]. eexists. split; [reflexivity|].
    cbn [engine step_of]. split; [exact Hw2|]. split; [exact Hn2|].
    split; [congruence|].
    unfold set_step. rewrite Nat.eqb_refl.
    unfold wrap_u16. rewrite Z.mod_small by lia. lia.
  - assert (Ej : j = length (steps p)) by lia. subst j.
    pose proof (walk_steps_last (last_step p) now (steps p) 0 s') as W.
    rewrite !Z.add_0_l in W. rewrite W by lia.
    destruct (last_step_closes (last_step p) now (Z.of_nat (length (steps p))) s'
                Hlast Hw' Hn') as (s2 & Hclose & Hw2 & Hn2 & Hc2).
    rewrite Hclose. cbn [bind negb]. eexists. split; [reflexivity|].
    cbn [engine step_of]. split; [exact Hw2|]. split; [exact Hn2|].
    split; [exact Hc2|]. unfold set_step. now rewrite Nat.eqb_refl.
Qed.

Lemma single_shot_events table f p :
  table f = Some p -> single_shot_protocol p ->
  forall evs j w,
    forallb is_event_pckt evs = true ->
    wf (engine w) -> no_until (engine w) = true ->
    current_protocol (engine w) = Some f -> step_of w f = Z.of_nat j ->
    (1 <= j <= length (steps p))%nat ->
    (j + length evs <= S (length (steps p)))%nat ->
    exists w',
      run_events table evs w = Ret w'
      /\ (if (j + length evs <=? length (steps p))%nat
          then current_protocol (engine w') = Some f
               /\ step_of w' f = Z.of_nat (j + length evs)
          else current_protocol (engine w') = None /\ step_of w' f = 0).
Proof.
  intros Htab Hp.
  induction evs as [|[pckt now] evs IH]; intros j w Hev Hwf Hn Hcp Hst Hj Hlen.
  - exists w. split; [reflexivity|]. cbn [length] in *. rewrite Nat.add_0_r.
    destruct (Nat.leb_spec j (length (steps p))); [auto | lia].
  - cbn [forallb] in Hev. apply andb_true_iff in Hev as [Hpk Hev].
    unfold is_event_pckt in Hpk. cbn [fst] in Hpk. apply Z.eqb_eq in Hpk.
    cbn [length] in Hlen |- *.
    destruct (single_shot_event table f p pckt now w j Htab Hp Hpk Hwf Hn Hcp Hst)
      as (w1 & Hrun & Hw1 & Hn1 & Hres); [lia|].
    cbn [run_events]. rewrite Hrun. cbn [bind].
    destruct (Nat.ltb_spec j (length (steps p))) as [Hlt|Hge].
    + destruct Hres as [Hc1 Hs1].
      destruct (IH (S j) w1 Hev Hw1 Hn1 Hc1 Hs1) as (w2 & Hr2 & Hres2); [lia|lia|].
      exists w2. split; [exact Hr2|].
      replace (j + S (length evs))%nat with (S j + length evs)%nat by lia.
      exact Hres2.
    + assert (E : length evs = 0%nat) by lia.
      destruct evs; [|discriminate E]. exists w1. split; [reflexivity|].
      cbn [length]. destruct (Nat.leb_spec (j + 1) (length (steps p))); [lia|].
      exact Hres.
Qed.

(** X16.  A protocol of single-shot steps advances by one step per event:
    started by a direct call, it is the current protocol with its step
    counter at [1 + k] after [k] event packets, for [k] below the number of
    its [RUN_PRODUCTION] steps, and the event packet after those runs its
    last step, which ends it: no protocol is current and its step counter
    is 0 again. *)
Theorem protocol_advances_one_step_per_event table f p t0 w evs :
  table f = Some p -> protocol_addr p = f -> single_shot_protocol p ->
  (1 <= length (steps p))%nat ->
  wf (engine w) -> no_until (engine w) = true -> step_of w f = 0 ->
  forallb is_event_pckt evs = true ->
  (length evs <= length (steps p))%nat ->
  exists w1 w2,
    call_protocol table f t0 w = Ret (true, w1)
    /\ run_events table evs w1 = Ret w2
    /\ (if (length evs <? length (steps p))%nat
        then protocol_running (engine w2) = true
             /\ step_of w2 f = Z.of_nat (S (length evs))
        else protocol_running (engine w2) = false /\ step_of w2 f = 0).
Proof.
  intros Htab Haddr Hp Hpos Hwf Hn Hst Hev Hlen.
  pose proof Hp as (Hl & Hsteps & Hlast).
  unfold call_protocol. rewrite Htab, Hst. unfold protocol_body.
  cbn [Z.eqb]. rewrite Haddr.
  destruct (lookup_lt_is_Some_2 (steps p) 0) as [[code cl] Hi]; [lia|].
  destruct (Hsteps code cl) as [-> Hcode].
  { apply list_elem_of_In. eapply list_elem_of_lookup_2. exact Hi. }
  pose proof (walk_steps_at (last_step p) t0 (steps p) 0 0 code Plain
                (set_current_protocol f (engine w)) Hi) as W.
  change (0 + Z.of_nat 0) with 0 in W. rewrite W by lia.
  assert (Hw0 : wf (set_current_protocol f (engine w)))
    by (destruct (engine w); exact Hwf).
  assert (Hn0 : no_until (set_current_protocol f (engine w)) = true)
    by (destruct (engine w); exact Hn).
  destruct (plain_step_closes code t0 0 _ Hcode Hw0 Hn0)
    as (s2 & Hclose & Hw2 & Hn2 & Hc2).
  rewrite Hclose. cbn [bind].
  set (w1 := {| engine := s2; step_of := set_step f (wrap_u16 (0 + 1)) (step_of w) |}).
  assert (Hs1 : step_of w1 f = Z.of_nat 1)
    by (cbn [w1 step_of]; unfold set_step; now rewrite Nat.eqb_refl).
  assert (Hc1 : current_protocol (engine w1) = Some f)
    by (cbn [w1 engine]; rewrite Hc2; now destruct (engine w)).
  destruct (single_shot_events table f p Htab Hp evs 1 w1 Hev Hw2 Hn2 Hc1 Hs1)
    as (w2 & Hr2 & Hres); [lia|lia|].
  exists w1, w2. split; [reflexivity|]. split; [exact Hr2|].
  change (1 + length evs)%nat with (S (length evs)) in Hres.
  unfold protocol_running.
  destruct (Nat.ltb_spec (length evs) (length (steps p)));
    destruct (Nat.leb_spec (S (length evs)) (length (steps p))); try lia;
    destruct Hres as [-> ->]; auto.
Qed.

Lemma idle_step_single_shot : single_shot_step idle_step.
Proof.
  intros t s0 Hwf Hn. exists false, (perform (Some ok_action) 0%nat s0).
  split; [reflexivity|]. now destruct s0.
Qed.

Lemma two_step_single_shot : single_shot_protocol two_step.
Proof.
  split; [reflexivity|]. split; [|apply idle_step_single_shot].
  intros code cl [E | [E | []]]; injection E as <- <-;
    (split; [reflexivity | apply idle_step_single_shot]).
Qed.

Lemma protocol_advances_one_step_per_event_witness :
  two_step_table 1%nat = Some two_step /\ protocol_addr two_step = 1%nat
  /\ single_shot_protocol two_step
  /\ (1 <= length (steps two_step))%nat
  /\ wf (engine idle_system) /\ no_until (engine idle_system) = true
  /\ step_of idle_system 1%nat = 0
  /\ forallb is_event_pckt [(event_packet 16 [], 0); (event_packet 3 [], 1)] = true
  /\ (length [(event_packet 16 [], 0); (event_packet 3 [], 1)]
      <= length (steps two_step))%nat
  /\ exists w1 w2,
       call_protocol two_step_table 1%nat 0 idle_system = Ret (true, w1)
       /\ run_events two_step_table
            [(event_packet 16 [], 0); (event_packet 3 [], 1)] w1 = Ret w2
       /\ (if (length [(event_packet 16 [], 0); (event_packet 3 [], 1)]
               <? length (steps two_step))%nat
           then protocol_running (engine w2) = true
                /\ step_of w2 1%nat
                   = Z.of_nat (S (length [(event_packet 16 [], 0);
                                          (event_packet 3 [], 1)]))
           else protocol_running (engine w2) = false /\ step_of w2 1%nat = 0).
Proof.
  assert (H1 : (1 <= length (steps two_step))%nat) by (cbn; lia).
  assert (Hwf : wf (engine idle_system)) by wf_concrete.
  assert (H2 : (length [(event_packet 16 [], 0); (event_packet 3 [], 1)]
                <= length (steps two_step))%nat) by (cbn; lia).
  split; [reflexivity|]. split; [reflexivity|].
  split; [exact two_step_single_shot|]. split; [exact H1|].
  split; [exact Hwf|]. do 3 (split; [reflexivity|]). split; [exact H2|].
  exact (protocol_advances_one_step_per_event two_step_table 1%nat two_step 0
           idle_system [(event_packet 16 [], 0); (event_packet 3 [], 1)]
           eq_refl eq_refl two_step_single_shot H1 Hwf eq_refl eq_refl eq_refl H2).
Defined.

(** ** Step functions *)

Section STEP_FUNCTION_PROPERTIES.

Context {W : Type}.

Lemma sf_walk_at : forall (l : list (sf_code W)) c (i : nat) (code : sf_code W) w,
  l !! i = Some code ->
  0 <= c -> c + Z.of_nat (length l) < 65536 ->
  sf_walk l c (c + Z.of_nat i) w
  = (let (e, w1) := code w in
     (match e with
      | Advance => wrap_u16 (c + Z.of_nat i + 1)
      | Stay => c + Z.of_nat i
      end, w1)).
Proof.
  induction l as [|code0 l IH]; intros c i code w Hi Hc Hlen.
  - discriminate Hi.
  - destruct i as [|i].
    + injection Hi as ->. cbn [sf_walk].
      now rewrite Z.add_0_r, Z.eqb_refl.
    + cbn [sf_walk lookup list_lookup] in Hi |- *.
      destruct (Z.eqb_spec (c + Z.of_nat (S i)) c) as [E|_]; [lia|].
      cbn [length] in Hlen.
      replace (wrap_u16 (c + 1)) with (c + 1)
        by (unfold wrap_u16; rewrite Z.mod_small; lia).
      replace (c + Z.of_nat (S i)) with (c + 1 + Z.of_nat i) by lia.
      apply IH; [exact Hi | lia | lia].
Qed.

Lemma sf_walk_past : forall (l : list (sf_code W)) c state w,
  0 <= c -> c + Z.of_nat (length l) <= state -> state < 65536 ->
  sf_walk l c state w = (state, w).
Proof.
  induction l as [|code0 l IH]; intros c state w Hc Hge Hlt; [reflexivity|].
  cbn [sf_walk]. cbn [length] in Hge.
  destruct (Z.eqb_spec state c) as [E|_]; [lia|].
  replace (wrap_u16 (c + 1)) with (c + 1)
    by (unfold wrap_u16; rewrite Z.mod_small; lia).
  apply IH; lia.
Qed.

Lemma sf_calls_from (skip : W -> bool) (l : list (sf_code W)) :
  Z.of_nat (length l) < 65536 ->
  (forall w, skip w = false) ->
  (forall code w, In code l -> fst (code w) = Advance) ->
  forall n i w, (i + n <= length l)%nat ->
    sf_calls n skip l (Z.of_nat i) w
    = (Z.of_nat (i + n), run_in_order (take n (drop i l)) w).
Proof.
  intros Hlen Hskip Hadv.
  induction n as [|n IH]; intros i w Hin.
  - cbn [sf_calls take run_in_order]. now rewrite Nat.add_0_r.
  - destruct (lookup_lt_is_Some_2 l i) as [code Hi]; [lia|].
    cbn [sf_calls]. unfold step_function. rewrite Hskip.
    pose proof (sf_walk_at l 0 i code w Hi) as Wk.
    rewrite !Z.add_0_l in Wk. rewrite Wk by lia.
    assert (Ha : fst (code w) = Advance).
    { apply Hadv. apply list_elem_of_In. eapply list_elem_of_lookup_2.
      exact Hi. }
    rewrite (drop_S l code i Hi). cbn [take run_in_order].
    destruct (code w) as [e w1]. cbn [fst snd] in Ha |- *. subst e.
    replace (wrap_u16 (Z.of_nat i + 1)) with (Z.of_nat (S i))
      by (unfold wrap_u16; rewrite Z.mod_small; lia).
    rewrite IH by lia. f_equal. f_equal. lia.
Qed.

(** X17.  A step function whose guard does not hold and whose steps all
    advance runs one step per call, in the order of the source: after
    [n] calls the step counter is [n] and the variables of the program
    are what the user code of the first [n] steps makes of them. *)
Theorem step_function_runs_in_order (skip : W -> bool) (l : list (sf_code W))
    n w :
  Z.of_nat (length l) < 65536 ->
  (forall w, skip w = false) ->
  (forall code w, In code l -> fst (code w) = Advance) ->
  (n <= length l)%nat ->
  sf_calls n skip l 0 w = (Z.of_nat n, run_in_order (take n l) w).
Proof.
  intros Hlen Hskip Hadv Hn.
  exact (sf_calls_from skip l Hlen Hskip Hadv n 0%nat w Hn).
Qed.

Lemma sf_calls_inert (skip : W -> bool) (l : list (sf_code W)) :
  forall k state w,
    Z.of_nat (length l) <= state -> state < 65536 ->
    sf_calls k skip l state w = (state, w).
Proof.
  induction k as [|k IH]; intros state w Hge Hlt; [reflexivity|].
  cbn [sf_calls]. unfold step_function.
  destruct (skip w); [now apply IH|].
  rewrite sf_walk_past by lia. now apply IH.
Qed.

Lemma sf_calls_add (skip : W -> bool) (l : list (sf_code W)) :
  forall n k state w,
    sf_calls (n + k) skip l state w
    = (let (state1, w1) := sf_calls n skip l state w in
       sf_calls k skip l state1 w1).
Proof.
  induction n as [|n IH]; intros k state w; [reflexivity|].
  cbn [sf_calls Nat.add].
  destruct (step_function skip l state w) as [state1 w1]. apply IH.
Qed.

(** X18.  Once its last step has run a step function does nothing any
    more: however many calls follow, the step counter stays at the number
    of steps and the variables of the program stay as the last step left
    them. *)
Theorem step_function_ends (skip : W -> bool) (l : list (sf_code W)) k w :
  Z.of_nat (length l) < 65536 ->
  (forall w, skip w = false) ->
  (forall code w, In code l -> fst (code w) = Advance) ->
  sf_calls (length l + k) skip l 0 w
  = (Z.of_nat (length l), run_in_order l w).
Proof.
  intros Hlen Hskip Hadv.
  rewrite sf_calls_add.
  pose proof (sf_calls_from skip l Hlen Hskip Hadv (length l) 0%nat w) as E.
  cbn [Nat.add drop] in E. change (Z.of_nat 0) with 0 in E.
  rewrite E by lia. rewrite firstn_all.
  apply sf_calls_inert; lia.
Qed.

End STEP_FUNCTION_PROPERTIES.

Lemma step_function_runs_in_order_witness :
  Z.of_nat (length counting_steps) < 65536
  /\ (forall w : nat, (fun _ : nat => false) w = false)
  /\ (forall code w, In code counting_steps -> fst (code w) = Advance)
  /\ (2 <= length counting_steps)%nat
  /\ sf_calls 2 (fun _ => false) counting_steps 0 1%nat
     = (Z.of_nat 2, run_in_order (take 2 counting_steps) 1%nat).
Proof.
  assert (H1 : Z.of_nat (length counting_steps) < 65536) by (cbn; lia).
  assert (H2 : forall w : nat, (fun _ : nat => false) w = false)
    by (intros; reflexivity).
  assert (H3 : forall code w, In code counting_steps -> fst (code w) = Advance)
    by (intros code w [<- | [<- | [<- | []]]]; reflexivity).
  assert (H4 : (2 <= length counting_steps)%nat) by (cbn; lia).
  split; [exact H1|]. split; [exact H2|]. split; [exact H3|]. split; [exact H4|].
  exact (step_function_runs_in_order (fun _ => false) counting_steps 2 1%nat
           H1 H2 H3 H4).
Defined.

Lemma step_function_ends_witness :
  Z.of_nat (length counting_steps) < 65536
  /\ (forall w : nat, (fun _ : nat => false) w = false)
  /\ (forall code w, In code counting_steps -> fst (code w) = Advance)
  /\ sf_calls (length counting_steps + 4) (fun _ => false) counting_steps 0 1%nat
     = (Z.of_nat (length counting_steps), run_in_order counting_steps 1%nat).
Proof.
  assert (H1 : Z.of_nat (length counting_steps) < 65536) by (cbn; lia).
  assert (H2 : forall w : nat, (fun _ : nat => false) w = false)
    by (intros; reflexivity).
  assert (H3 : forall code w, In code counting_steps -> fst (code w) = Advance)
    by (intros code w [<- | [<- | [<- | []]]]; reflexivity).
  split; [exact H1|]. split; [exact H2|]. split; [exact H3|].
  exact (step_function_ends (fun _ => false) counting_steps 4 1%nat H1 H2 H3).
Defined.

(** ** The address list *)

Lemma first_difference_le : forall n index a b,
  (first_difference n index a b <= index + n)%nat.
Proof.
  induction n as [|n IH]; intros index a b; cbn [first_difference]; [lia|].
  destruct (byte_at a index =? byte_at b index); [|lia].
  specialize (IH (S index) a b). lia.
Qed.

Lemma first_difference_all : forall n index a b,
  first_difference n index a b = (index + n)%nat
  <-> (forall k, (k < n)%nat ->
         byte_at a (index + k) = byte_at b (index + k)).
Proof.
  induction n as [|n IH]; intros index a b; cbn [first_difference].
  - split; [intros _ k Hk; lia | intros _; lia].
  - destruct (Z.eqb_spec (byte_at a index) (byte_at b index)) as [E|N].
    + rewrite <- Nat.add_succ_comm, IH. split.
      * intros H [|k] Hk; [now rewrite Nat.add_0_r|].
        rewrite <- Nat.add_succ_comm. apply H. lia.
      * intros H k Hk. rewrite Nat.add_succ_comm. apply H. lia.
    + split; [lia|]. intros H. exfalso. apply N.
      specialize (H 0%nat). rewrite Nat.add_0_r in H. apply H. lia.
Qed.

Lemma same_addr_eq (a b : tBDAddr) :
  length a = 6%nat -> length b = 6%nat ->
  first_difference 6 0 a b = 6%nat <-> a = b.
Proof.
  intros Ha Hb. pose proof (first_difference_all 6 0 a b) as E.
  cbn [Nat.add] in E. rewrite E. split.
  - intros H. apply (nth_ext a b 0 0); [congruence|].
    intros k Hk. apply (H k). lia.
  - intros -> k _. reflexivity.
Qed.

Lemma copy_addr_id (a : tBDAddr) :
  length a = 6%nat -> map (byte_at a) (seq 0 6) = a.
Proof.
  intros Ha.
  destruct a as [|x0 [|x1 [|x2 [|x3 [|x4 [|x5 [|x6 a]]]]]]];
    try discriminate Ha. reflexivity.
Qed.

Lemma addrs_wf_entry l j a :
  addrs_wf l -> addr_list l !! j = Some a -> length a = 6%nat.
Proof.
  intros (_ & _ & _ & _ & H) Hj.
  rewrite forallb_forall in H.
  apply Nat.eqb_eq, H, list_elem_of_In, (list_elem_of_lookup_2 _ j), Hj.
Qed.

Lemma find_addr_absent (newaddr : tBDAddr) l :
  addrs_wf l -> length newaddr = 6%nat ->
  forall fuel k,
    (k <= Z.to_nat (num_addrs l))%nat ->
    (Z.to_nat (num_addrs l) - k <= fuel)%nat ->
    (forall j, (k <= j < Z.to_nat (num_addrs l))%nat ->
       addr_list l !! j <> Some newaddr) ->
    find_addr fuel newaddr l (Z.of_nat k) false = Ret (num_addrs l, false).
Proof.
  intros Hwf Hnew.
  pose proof Hwf as (Hlen & _ & _ & Hnum & _). unfold MAX_ADDRS in *.
  induction fuel as [|fuel IH]; intros k Hk Hfuel Habs; cbn [find_addr].
  - destruct (Z.ltb_spec (Z.of_nat k) (num_addrs l)) as [Hlt|Hge];
      cbn [andb negb]; [lia|].
    do 2 f_equal. lia.
  - destruct (Z.ltb_spec (Z.of_nat k) (num_addrs l)) as [Hlt|Hge];
      cbn [andb negb]; [|do 2 f_equal; lia].
    rewrite Nat2Z.id.
    destruct (lookup_lt_is_Some_2 (addr_list l) k) as [entry He]; [lia|].
    rewrite He.
    destruct (Nat.eqb_spec (first_difference 6 0 newaddr entry) 6) as [E|_].
    + exfalso. apply (Habs k); [lia|].
      apply same_addr_eq in E;
        [now rewrite E | exact Hnew | exact (addrs_wf_entry l k entry Hwf He)].
    + replace (wrap_u8 (Z.of_nat k + 1)) with (Z.of_nat (S k))
        by (unfold wrap_u8; rewrite Z.mod_small; lia).
      apply IH; [lia | lia |]. intros j Hj. apply Habs. lia.
Qed.

Lemma find_addr_done fuel (newaddr : tBDAddr) l addr :
  find_addr fuel newaddr l addr true = Ret (addr, true).
Proof.
  destruct fuel; cbn [find_addr negb]; now rewrite andb_false_r.
Qed.

Lemma find_addr_present (newaddr : tBDAddr) l i :
  addrs_wf l -> length newaddr = 6%nat ->
  (i < Z.to_nat (num_addrs l))%nat ->
  addr_list l !! i = Some newaddr ->
  forall fuel k,
    (k <= i)%nat -> (i - k < fuel)%nat ->
    (forall j, (k <= j < i)%nat -> addr_list l !! j <> Some newaddr) ->
    find_addr fuel newaddr l (Z.of_nat k) false = Ret (Z.of_nat (S i), true).
Proof.
  intros Hwf Hnew Hi Hat.
  pose proof Hwf as (Hlen & _ & _ & Hnum & _). unfold MAX_ADDRS in *.
  induction fuel as [|fuel IH]; intros k Hk Hfuel Habs; [lia|].
  cbn [find_addr].
  destruct (Z.ltb_spec (Z.of_nat k) (num_addrs l)) as [Hlt|Hge];
    cbn [andb negb]; [|lia].
  rewrite Nat2Z.id.
  destruct (lookup_lt_is_Some_2 (addr_list l) k) as [entry He]; [lia|].
  rewrite He.
  replace (wrap_u8 (Z.of_nat k + 1)) with (Z.of_nat (S k))
    by (unfold wrap_u8; rewrite Z.mod_small; lia).
  destruct (Nat.eqb_spec (first_difference 6 0 newaddr entry) 6) as [E|N].
  - apply same_addr_eq in E;
      [| exact Hnew | exact (addrs_wf_entry l k entry Hwf He)].
    subst entry.
    destruct (Nat.eq_dec k i) as [->|Hne].
    + apply find_addr_done.
    + exfalso. apply (Habs k); [lia | exact He].
  - destruct (Nat.eq_dec k i) as [->|Hne].
    + exfalso. apply N.
      assert (E : Some entry = Some newaddr)
        by (transitivity (addr_list l !! i); [symmetry; exact He | exact Hat]).
      injection E as ->. now apply same_addr_eq.
    + apply IH; [lia | lia |]. intros j Hj. apply Habs. lia.
Qed.

Lemma stored_lookup l j a :
  stored l !! j = Some a
  <-> (j < Z.to_nat (num_addrs l))%nat /\ addr_list l !! j = Some a.
Proof.
  unfold stored. split.
  - intros H. pose proof (lookup_lt_Some _ _ _ H) as Hlt.
    rewrite length_take in Hlt.
    rewrite lookup_take_lt in H by lia. split; [lia | exact H].
  - intros [Hlt H]. now rewrite lookup_take_lt.
Qed.

Lemma add_addr_absent (newaddr : tBDAddr) connectable public_addr l :
  addrs_wf l -> length newaddr = 6%nat ->
  num_addrs l < Z.of_nat MAX_ADDRS ->
  ~ In newaddr (stored l) ->
  add_addr newaddr connectable public_addr l
  = Ret {| num_addrs := num_addrs l + 1;
           addr_list := <[Z.to_nat (num_addrs l) := newaddr]> (addr_list l);
           connectables := <[Z.to_nat (num_addrs l) := flag_of connectable]>
                             (connectables l);
           public_addrs := <[Z.to_nat (num_addrs l) := flag_of public_addr]>
                             (public_addrs l) |}.
Proof.
  intros Hwf Hnew Hroom Habs.
  pose proof Hwf as (Hlen & _ & _ & Hnum & _). unfold MAX_ADDRS in *.
  unfold add_addr.
  pose proof (find_addr_absent newaddr l Hwf Hnew 256 0%nat) as F.
  change (Z.of_nat 0) with 0 in F.
  rewrite F; [| lia | lia |].
  - cbn [bind negb].
    destruct (Nat.ltb_spec (Z.to_nat (num_addrs l)) MAX_ADDRS) as [_|Hge];
      [|unfold MAX_ADDRS in Hge; lia].
    rewrite (copy_addr_id newaddr Hnew).
    replace (wrap_u8 (num_addrs l + 1)) with (num_addrs l + 1)
      by (unfold wrap_u8; rewrite Z.mod_small; lia).
    reflexivity.
  - intros j Hj Hat. apply Habs. apply list_elem_of_In.
    apply (list_elem_of_lookup_2 _ j). apply stored_lookup. split; [lia|exact Hat].
Qed.

Lemma add_addr_present (newaddr : tBDAddr) connectable public_addr l i :
  addrs_wf l -> length newaddr = 6%nat ->
  (i < Z.to_nat (num_addrs l))%nat ->
  addr_list l !! i = Some newaddr ->
  (forall j, (j < i)%nat -> addr_list l !! j <> Some newaddr) ->
  add_addr newaddr connectable public_addr l
  = (do c <- mark_both connectable (S i) (connectables l);
     do p <- mark_both public_addr (S i) (public_addrs l);
     Ret {| num_addrs := num_addrs l; addr_list := addr_list l;
            connectables := c; public_addrs := p |}).
Proof.
  intros Hwf Hnew Hi Hat Hfirst.
  unfold add_addr.
  pose proof (find_addr_present newaddr l i Hwf Hnew Hi Hat 256 0%nat) as F.
  change (Z.of_nat 0) with 0 in F.
  rewrite F; [| lia | | intros j Hj; apply Hfirst; lia].
  - cbn [bind negb]. now rewrite Nat2Z.id.
  - destruct Hwf as (_ & _ & _ & Hnum & _). unfold MAX_ADDRS in Hnum. lia.
Qed.

(** X19.  An address that the list does not hold yet, added while there is
    room, is stored in the first free slot with its two flags (1 for true,
    0 for false); the count grows by one and the slots of the addresses
    stored before are left as they were. *)
Theorem add_addr_appends (newaddr : tBDAddr) connectable public_addr l :
  addrs_wf l -> length newaddr = 6%nat ->
  num_addrs l < Z.of_nat MAX_ADDRS ->
  ~ In newaddr (stored l) ->
  exists l',
    add_addr newaddr connectable public_addr l = Ret l'
    /\ addrs_wf l'
    /\ num_addrs l' = num_addrs l + 1
    /\ stored l' = stored l ++ [newaddr]
    /\ connectables l' !! Z.to_nat (num_addrs l) = Some (flag_of connectable)
    /\ public_addrs l' !! Z.to_nat (num_addrs l) = Some (flag_of public_addr)
    /\ (forall j, (j < Z.to_nat (num_addrs l))%nat ->
          connectables l' !! j = connectables l !! j
          /\ public_addrs l' !! j = public_addrs l !! j).
Proof.
  intros Hwf Hnew Hroom Habs.
  pose proof Hwf as (Hlen & Hlc & Hlp & Hnum & Hsix).
  unfold MAX_ADDRS in Hlen, Hlc, Hlp, Hnum, Hroom.
  assert (Hna : (Z.to_nat (num_addrs l) < length (addr_list l))%nat)
    by (rewrite Hlen; lia).
  assert (Hnc : (Z.to_nat (num_addrs l) < length (connectables l))%nat)
    by (rewrite Hlc; lia).
  assert (Hnp : (Z.to_nat (num_addrs l) < length (public_addrs l))%nat)
    by (rewrite Hlp; lia).
  eexists. split; [now apply add_addr_absent|].
  cbn [num_addrs addr_list connectables public_addrs].
  split; [|split; [reflexivity|split; [|split; [|split]]]].
  - unfold addrs_wf, MAX_ADDRS.
    cbn [num_addrs addr_list connectables public_addrs].
    rewrite !length_insert. repeat (split; [assumption || lia|]).
    rewrite forallb_forall in Hsix |- *. intros a Ha.
    apply list_elem_of_In, list_elem_of_lookup_1 in Ha as [j Hj].
    destruct (Nat.eq_dec j (Z.to_nat (num_addrs l))) as [->|Hne].
    + rewrite list_lookup_insert_eq in Hj by exact Hna.
      injection Hj as <-. now apply Nat.eqb_eq.
    + rewrite list_lookup_insert_ne in Hj by congruence.
      apply Hsix, list_elem_of_In, (list_elem_of_lookup_2 _ j), Hj.
  - unfold stored. cbn [num_addrs addr_list].
    replace (Z.to_nat (num_addrs l + 1)) with (S (Z.to_nat (num_addrs l)))
      by lia.
    rewrite (take_S_r _ _ newaddr)
      by (apply list_lookup_insert_eq; exact Hna).
    now rewrite take_insert_ge by lia.
  - apply list_lookup_insert_eq. exact Hnc.
  - apply list_lookup_insert_eq. exact Hnp.
  - intros j Hj. split; apply list_lookup_insert_ne; lia.
Qed.

Lemma add_addr_appends_witness :
  addrs_wf two_addrs /\ length [9; 9; 9; 9; 9; 9] = 6%nat
  /\ num_addrs two_addrs < Z.of_nat MAX_ADDRS
  /\ ~ In [9; 9; 9; 9; 9; 9] (stored two_addrs)
  /\ exists l',
       add_addr [9; 9; 9; 9; 9; 9] true false two_addrs = Ret l'
       /\ addrs_wf l'
       /\ num_addrs l' = num_addrs two_addrs + 1
       /\ stored l' = stored two_addrs ++ [[9; 9; 9; 9; 9; 9]]
       /\ connectables l' !! Z.to_nat (num_addrs two_addrs)
          = Some (flag_of true)
       /\ public_addrs l' !! Z.to_nat (num_addrs two_addrs)
          = Some (flag_of false)
       /\ (forall j, (j < Z.to_nat (num_addrs two_addrs))%nat ->
             connectables l' !! j = connectables two_addrs !! j
             /\ public_addrs l' !! j = public_addrs two_addrs !! j).
Proof.
  assert (Hwf : addrs_wf two_addrs)
    by (repeat split; try reflexivity; vm_compute; discriminate).
  assert (Hroom : num_addrs two_addrs < Z.of_nat MAX_ADDRS) by (vm_compute; reflexivity).
  assert (Habs : ~ In [9; 9; 9; 9; 9; 9] (stored two_addrs))
    by (intros [E | [E | []]]; discriminate E).
  split; [exact Hwf|]. split; [reflexivity|]. split; [exact Hroom|].
  split; [exact Habs|].
  exact (add_addr_appends [9; 9; 9; 9; 9; 9] true false two_addrs
           Hwf eq_refl Hroom Habs).
Defined.

Lemma NoDup_first_occurrence l i a :
  NoDup (stored l) -> (i < Z.to_nat (num_addrs l))%nat ->
  addr_list l !! i = Some a ->
  forall j, (j < i)%nat -> addr_list l !! j <> Some a.
Proof.
  intros Hnd Hi Hat j Hj Hat'.
  assert (E : j = i); [|lia].
  eapply (NoDup_lookup (stored l) j i a).
  - exact Hnd.
  - apply stored_lookup. split; [lia | exact Hat'].
  - apply stored_lookup. split; [lia | exact Hat].
Qed.

Lemma mark_both_ok flag a (flags : list Z) :
  (a < length flags)%nat ->
  mark_both flag a flags
  = Ret (if flag && (nth a flags 0 =? 0) then <[a := -1]> flags else flags).
Proof.
  intros Ha. unfold mark_both. destruct flag; [|reflexivity].
  rewrite nth_lookup.
  destruct (lookup_lt_is_Some_2 flags a Ha) as [v ->]. reflexivity.
Qed.

Lemma mark_result_length flag a (flags : list Z) :
  length (if flag && (nth a flags 0 =? 0) then <[a := -1]> flags else flags)
  = length flags.
Proof.
  destruct (flag && (nth a flags 0 =? 0)); [apply length_insert | reflexivity].
Qed.

Lemma mark_result_other flag a (flags : list Z) j :
  j <> a ->
  (if flag && (nth a flags 0 =? 0) then <[a := -1]> flags else flags) !! j
  = flags !! j.
Proof.
  intros Hj. destruct (flag && (nth a flags 0 =? 0)); [|reflexivity].
  apply list_lookup_insert_ne. congruence.
Qed.

(** X20.  An address the list already holds is not stored again, and its
    own flags are not touched: because the search loop increments [addr]
    once more after the match, the test and the update of the flags act on
    the slot after the one that holds the address. *)
Theorem add_addr_again_marks_next_slot (newaddr : tBDAddr) connectable
    public_addr l i :
  addrs_wf l -> length newaddr = 6%nat ->
  (i < Z.to_nat (num_addrs l))%nat ->
  addr_list l !! i = Some newaddr ->
  (forall j, (j < i)%nat -> addr_list l !! j <> Some newaddr) ->
  (S i < MAX_ADDRS)%nat ->
  exists l',
    add_addr newaddr connectable public_addr l = Ret l'
    /\ num_addrs l' = num_addrs l
    /\ addr_list l' = addr_list l
    /\ connectables l'
       = (if connectable && (nth (S i) (connectables l) 0 =? 0)
          then <[S i := -1]> (connectables l) else connectables l)
    /\ public_addrs l'
       = (if public_addr && (nth (S i) (public_addrs l) 0 =? 0)
          then <[S i := -1]> (public_addrs l) else public_addrs l)
    /\ connectables l' !! i = connectables l !! i
    /\ public_addrs l' !! i = public_addrs l !! i.
Proof.
  intros Hwf Hnew Hi Hat Hfirst Hroom.
  pose proof Hwf as (_ & Hlc & Hlp & _ & _).
  rewrite (add_addr_present newaddr connectable public_addr l i)
    by assumption.
  rewrite !mark_both_ok by (rewrite ?Hlc, ?Hlp; exact Hroom).
  cbn [bind]. eexists. split; [reflexivity|].
  cbn [num_addrs addr_list connectables public_addrs].
  repeat (split; [reflexivity|]).
  split; apply mark_result_other; lia.
Qed.

Lemma add_addr_again_marks_next_slot_witness :
  addrs_wf two_addrs /\ length [1; 2; 3; 4; 5; 6] = 6%nat
  /\ (0 < Z.to_nat (num_addrs two_addrs))%nat
  /\ addr_list two_addrs !! 0%nat = Some [1; 2; 3; 4; 5; 6]
  /\ (forall j, (j < 0)%nat -> addr_list two_addrs !! j <> Some [1; 2; 3; 4; 5; 6])
  /\ (1 < MAX_ADDRS)%nat
  /\ exists l',
       add_addr [1; 2; 3; 4; 5; 6] true false two_addrs = Ret l'
       /\ num_addrs l' = num_addrs two_addrs
       /\ addr_list l' = addr_list two_addrs
       /\ connectables l'
          = (if true && (nth 1 (connectables two_addrs) 0 =? 0)
             then <[1%nat := -1]> (connectables two_addrs)
             else connectables two_addrs)
       /\ public_addrs l'
          = (if false && (nth 1 (public_addrs two_addrs) 0 =? 0)
             then <[1%nat := -1]> (public_addrs two_addrs)
             else public_addrs two_addrs)
       /\ connectables l' !! 0%nat = connectables two_addrs !! 0%nat
       /\ public_addrs l' !! 0%nat = public_addrs two_addrs !! 0%nat.
Proof.
  assert (Hwf : addrs_wf two_addrs)
    by (repeat split; try reflexivity; vm_compute; discriminate).
  assert (Hi : (0 < Z.to_nat (num_addrs two_addrs))%nat) by (vm_compute; lia).
  assert (Hfirst : forall j, (j < 0)%nat ->
            addr_list two_addrs !! j <> Some [1; 2; 3; 4; 5; 6])
    by (intros j Hj; lia).
  assert (Hroom : (1 < MAX_ADDRS)%nat) by (vm_compute; lia).
  split; [exact Hwf|]. split; [reflexivity|]. split; [exact Hi|].
  split; [reflexivity|]. split; [exact Hfirst|]. split; [exact Hroom|].
  exact (add_addr_again_marks_next_slot [1; 2; 3; 4; 5; 6] true false
           two_addrs 0%nat Hwf eq_refl Hi eq_refl Hfirst Hroom).
Defined.

(** X21.  The list never holds an address twice: while there is room,
    [add_addr] on a list of distinct addresses returns, the stored
    addresses are the old ones when the new address is among them and the
    old ones followed by the new address otherwise, and they are distinct
    again. *)
Theorem add_addr_keeps_addresses_distinct (newaddr : tBDAddr) connectable
    public_addr l :
  addrs_wf l -> length newaddr = 6%nat ->
  num_addrs l < Z.of_nat MAX_ADDRS ->
  NoDup (stored l) ->
  exists l',
    add_addr newaddr connectable public_addr l = Ret l'
    /\ addrs_wf l'
    /\ NoDup (stored l')
    /\ (In newaddr (stored l) /\ stored l' = stored l
        \/ ~ In newaddr (stored l) /\ stored l' = stored l ++ [newaddr]).
Proof.
  intros Hwf Hnew Hroom Hnd.
  pose proof Hwf as (Hlen & Hlc & Hlp & Hnum & Hsix).
  destruct (decide (elem_of newaddr (stored l))) as [Hin|Habs];
    rewrite list_elem_of_In in *.
  - pose proof Hin as Hin'.
    apply list_elem_of_In, list_elem_of_lookup_1 in Hin' as [i Hi].
    apply stored_lookup in Hi as [Hi Hat].
    rewrite (add_addr_present newaddr connectable public_addr l i Hwf Hnew Hi
               Hat (NoDup_first_occurrence l i newaddr Hnd Hi Hat)).
    unfold MAX_ADDRS in Hlc, Hlp, Hroom.
    rewrite !mark_both_ok by (rewrite ?Hlc, ?Hlp; lia).
    cbn [bind]. eexists. split; [reflexivity|].
    split; [|split; [exact Hnd | left; split; [exact Hin | reflexivity]]].
    unfold addrs_wf. cbn [num_addrs addr_list connectables public_addrs].
    rewrite !mark_result_length. exact Hwf.
  - rewrite add_addr_absent by assumption.
    unfold MAX_ADDRS in Hlen, Hlc, Hlp, Hnum, Hroom.
    assert (Hna : (Z.to_nat (num_addrs l) < length (addr_list l))%nat)
      by (rewrite Hlen; lia).
    assert (Hst : stored
              {| num_addrs := num_addrs l + 1;
                 addr_list := <[Z.to_nat (num_addrs l) := newaddr]> (addr_list l);
                 connectables := <[Z.to_nat (num_addrs l) := flag_of connectable]>
                                   (connectables l);
                 public_addrs := <[Z.to_nat (num_addrs l) := flag_of public_addr]>
                                   (public_addrs l) |}
              = stored l ++ [newaddr]).
    { unfold stored. cbn [num_addrs addr_list].
      replace (Z.to_nat (num_addrs l + 1)) with (S (Z.to_nat (num_addrs l)))
        by lia.
      rewrite (take_S_r _ _ newaddr)
        by (apply list_lookup_insert_eq; exact Hna).
      now rewrite take_insert_ge by lia. }
    eexists. split; [reflexivity|].
    split; [|split; [|right; split; [exact Habs | exact Hst]]].
    + unfold addrs_wf, MAX_ADDRS.
      cbn [num_addrs addr_list connectables public_addrs].
      rewrite !length_insert. repeat (split; [assumption || lia|]).
      rewrite forallb_forall in Hsix |- *. intros a Ha.
      apply list_elem_of_In, list_elem_of_lookup_1 in Ha as [j Hj].
      destruct (Nat.eq_dec j (Z.to_nat (num_addrs l))) as [->|Hne].
      * rewrite list_lookup_insert_eq in Hj by exact Hna.
        injection Hj as <-. now apply Nat.eqb_eq.
      * rewrite list_lookup_insert_ne in Hj by congruence.
        apply Hsix, list_elem_of_In, (list_elem_of_lookup_2 _ j), Hj.
    + rewrite Hst. apply NoDup_app. split; [exact Hnd|].
      split; [|apply NoDup_singleton].
      intros a Ha Ha'. apply list_elem_of_In in Ha.
      apply list_elem_of_In in Ha' as [E | []]. subst a. exact (Habs Ha).
Qed.

Lemma add_addr_keeps_addresses_distinct_witness :
  addrs_wf two_addrs /\ length [6; 5; 4; 3; 2; 1] = 6%nat
  /\ num_addrs two_addrs < Z.of_nat MAX_ADDRS
  /\ NoDup (stored two_addrs)
  /\ exists l',
       add_addr [6; 5; 4; 3; 2; 1] false true two_addrs = Ret l'
       /\ addrs_wf l'
       /\ NoDup (stored l')
       /\ (In [6; 5; 4; 3; 2; 1] (stored two_addrs)
           /\ stored l' = stored two_addrs
           \/ ~ In [6; 5; 4; 3; 2; 1] (stored two_addrs)
              /\ stored l' = stored two_addrs ++ [[6; 5; 4; 3; 2; 1]]).
Proof.
  assert (Hwf : addrs_wf two_addrs)
    by (repeat split; try reflexivity; vm_compute; discriminate).
  assert (Hroom : num_addrs two_addrs < Z.of_nat MAX_ADDRS)
    by (vm_compute; reflexivity).
  assert (Hnd : NoDup (stored two_addrs)) by (apply (bool_decide_unpack _); vm_compute; reflexivity).
  split; [exact Hwf|]. split; [reflexivity|]. split; [exact Hroom|].
  split; [exact Hnd|].
  exact (add_addr_keeps_addresses_distinct [6; 5; 4; 3; 2; 1] false true
           two_addrs Hwf eq_refl Hroom Hnd).
Defined.

(** X22.  [add_addr] has no test of the capacity: with [MAX_ADDRS]
    addresses stored, a further new address is written past the end of
    the three arrays. *)
Theorem add_addr_full_list_overflows (newaddr : tBDAddr) connectable
    public_addr l :
  addrs_wf l -> length newaddr = 6%nat ->
  num_addrs l = Z.of_nat MAX_ADDRS ->
  ~ In newaddr (stored l) ->
  add_addr newaddr connectable public_addr l = Fault.
Proof.
  intros Hwf Hnew Hfull Habs. unfold add_addr.
  pose proof (find_addr_absent newaddr l Hwf Hnew 256 0%nat) as F.
  change (Z.of_nat 0) with 0 in F.
  rewrite F.
  - cbn [bind negb]. rewrite Hfull, Nat2Z.id. reflexivity.
  - lia.
  - rewrite Hfull. unfold MAX_ADDRS. lia.
  - intros j Hj Hat. apply Habs. apply list_elem_of_In.
    apply (list_elem_of_lookup_2 _ j). apply stored_lookup.
    split; [lia | exact Hat].
Qed.

Lemma add_addr_full_list_overflows_witness :
  addrs_wf full_addrs /\ length [200; 0; 0; 0; 0; 0] = 6%nat
  /\ num_addrs full_addrs = Z.of_nat MAX_ADDRS
  /\ ~ In [200; 0; 0; 0; 0; 0] (stored full_addrs)
  /\ add_addr [200; 0; 0; 0; 0; 0] true true full_addrs = Fault.
Proof.
  assert (Hwf : addrs_wf full_addrs)
    by (repeat split; try reflexivity; vm_compute; discriminate).
  assert (Habs : ~ In [200; 0; 0; 0; 0; 0] (stored full_addrs)).
  { intros H. apply list_elem_of_In, list_elem_of_lookup_1 in H as [j H].
    apply stored_lookup in H as [_ H]. cbn [addr_list full_addrs] in H.
    apply list_lookup_fmap_Some in H as (k & E & Hk).
    apply lookup_seq in Hk as [-> Hk]. injection E as E. lia. }
  split; [exact Hwf|]. split; [reflexivity|]. split; [reflexivity|].
  split; [exact Habs|].
  exact (add_addr_full_list_overflows [200; 0; 0; 0; 0; 0] true true
           full_addrs Hwf eq_refl eq_refl Habs).
Defined.
